(** * securefs: the open-file table and its scoped handles (file_table.h)

    A shallow embedding of [securefs::AutoClosedFileBase], the two lock
    guards built on it and the configuration queries of
    [securefs::FileTable], followed by the properties of the registry
    specification that they satisfy.

    Objects live at addresses.  A C++ pointer is an [option nat]: [None] is
    [nullptr], [Some a] points to the object at address [a].  Member
    functions take the address of [*this] and thread the program state. *)

From stdpp Require Import gmap list.
From Stdlib Require Import ZArith.

(** ** Pointers and the handle object *)

Definition ptr : Type := option nat.
Definition nullptr : ptr := None.

(** The two data members of [class AutoClosedFileBase]. *)
Record AutoClosedFileBase : Type := mkAutoClosedFileBase {
  m_ft : ptr;   (* FileTable pointer *)
  m_fb : ptr    (* FileBase pointer *)
}.

Global Instance AutoClosedFileBase_eq_dec : EqDecision AutoClosedFileBase.
Proof. solve_decision. Defined.

(** Events of the per-object mutexes. *)
Inductive lock_event : Type :=
  | EvLock (fb : nat)
  | EvUnlock (fb : nat).

Global Instance lock_event_eq_dec : EqDecision lock_event.
Proof. solve_decision. Defined.

(** ** Program state and outcomes

    [R] is whatever state [FileTable::close] reads and writes, [E] the
    type of C++ exception values.  [closes] and [lock_log] are ghost
    traces: every call of [FileTable::close] and every mutex operation is
    appended to them. *)

Section Program.
Context {R E : Type}.

Record State : Type := mkState {
  handles  : gmap nat AutoClosedFileBase;  (* live handle objects, by address *)
  registry : R;                           (* the file tables *)
  closes   : list (nat * nat);            (* calls close(fb) on table ft, oldest first *)
  mutexes  : gset nat;                    (* file objects whose mutex is locked *)
  lock_log : list lock_event              (* mutex operations, oldest first *)
}.

Definition set_handles (f : gmap nat AutoClosedFileBase → gmap nat AutoClosedFileBase)
    (s : State) : State :=
  {| handles := f (handles s); registry := registry s; closes := closes s;
     mutexes := mutexes s; lock_log := lock_log s |}.

(** How a call ends: it returns a value, it throws, or it has no defined
    behaviour (a dangling or null pointer is dereferenced, a mutex is
    unlocked that is not locked, or the call waits for ever). *)
Inductive result (A : Type) : Type :=
  | Normal (a : A) (s : State)
  | Thrown (e : E) (s : State)
  | Undefined.
Arguments Normal {A} a s.
Arguments Thrown {A} e s.
Arguments Undefined {A}.

(** The state a caller continues in, whether the call returned or the
    caller caught what it threw. *)
Definition state_after {A} (r : result A) : option State :=
  match r with
  | Normal _ s | Thrown _ s => Some s
  | Undefined => None
  end.

(** A call that leaves the handle at [a] and the mutexes as they are. *)
Definition leaves_alone {A} (a : nat) (s : State) (r : result A) : Prop :=
  ∀ s1, state_after r = Some s1 →
    handles s1 !! a = handles s !! a
    ∧ mutexes s1 = mutexes s ∧ lock_log s1 = lock_log s.

(** ** AutoClosedFileBase *)

Section Handle.

(** [FileTable::close] is declared in the header and
    defined elsewhere: it is a parameter here.  Called on the table at
    [ft] with the object at [fb] it changes the registry and either
    returns ([None]) or throws ([Some e]). *)
Variable FileTable_close : nat → nat → R → R * option E.

Definition call_close (ft fb : nat) (s : State) : result unit :=
  let '(r, thrown) := FileTable_close ft fb (registry s) in
  let s' := {| handles := handles s; registry := r;
               closes := closes s ++ [(ft, fb)];
               mutexes := mutexes s; lock_log := lock_log s |} in
  match thrown with
  | Some e => Thrown e s'
  | None => Normal tt s'
  end.

(** The two-pointer constructor [AutoClosedFileBase(ft, fb)]: a new
    object at the unused address [this]. *)
Definition construct (this : nat) (ft fb : ptr) (s : State) : result unit :=
  match handles s !! this with
  | Some _ => Undefined
  | None => Normal tt (set_handles (insert this {| m_ft := ft; m_fb := fb |}) s)
  end.

(** [AutoClosedFileBase(AutoClosedFileBase&& other) noexcept]. *)
Definition move_construct (this other : nat) (s : State) : result unit :=
  match handles s !! this, handles s !! other with
  | None, Some o =>
      let s1 := set_handles (insert this {| m_ft := m_ft o; m_fb := m_fb o |}) s in
      Normal tt (set_handles (insert other {| m_ft := nullptr; m_fb := nullptr |}) s1)
  | _, _ => Undefined
  end.

(** [void swap(AutoClosedFileBase& other) noexcept]: both members are
    exchanged.  Swapping an object with itself leaves it as it was. *)
Definition swap (this other : nat) (s : State) : result unit :=
  match handles s !! this, handles s !! other with
  | Some t, Some o =>
      let s1 := set_handles (insert this {| m_ft := m_ft o; m_fb := m_fb o |}) s in
      Normal tt (set_handles (insert other {| m_ft := m_ft t; m_fb := m_fb t |}) s1)
  | _, _ => Undefined
  end.

(** [AutoClosedFileBase& operator=(AutoClosedFileBase&& other) noexcept]. *)
Definition move_assign (this other : nat) (s : State) : result unit :=
  if decide (this = other) then
    match handles s !! this with
    | Some _ => Normal tt s
    | None => Undefined
    end
  else swap this other s.

(** [get() noexcept]. *)
Definition get (this : nat) (s : State) : result ptr :=
  match handles s !! this with
  | Some h => Normal (m_fb h) s
  | None => Undefined
  end.

(** [release() noexcept]. *)
Definition release (this : nat) (s : State) : result ptr :=
  match handles s !! this with
  | Some h =>
      let rt := m_fb h in
      Normal rt (set_handles (insert this {| m_ft := m_ft h; m_fb := nullptr |}) s)
  | None => Undefined
  end.

(** [reset(fb)]: the assignment [m_fb = fb] is not reached
    when [close] throws. *)
Definition reset (this : nat) (fb : ptr) (s : State) : result unit :=
  match handles s !! this with
  | Some h =>
      let store s0 :=
        set_handles (insert this {| m_ft := m_ft h; m_fb := fb |}) s0 in
      match m_ft h, m_fb h with
      | Some ft, Some old =>
          match call_close ft old s with
          | Normal _ s1 => Normal tt (store s1)
          | Thrown e s1 => Thrown e s1
          | Undefined => Undefined
          end
      | _, _ => Normal tt (store s)
      end
  | None => Undefined
  end.

(** [~AutoClosedFileBase()]: [try { reset(nullptr); } catch (...) { }],
    after which the object is gone. *)
Definition destructor (this : nat) (s : State) : result unit :=
  match reset this nullptr s with
  | Normal _ s1 => Normal tt (set_handles (delete this) s1)
  | Thrown _ s1 => Normal tt (set_handles (delete this) s1)
  | Undefined => Undefined
  end.

(** The ways a handle is made to let go of its object: [reset(nullptr)]
    and the destructor. *)
Inductive handle_op : Type := OpReset | OpDrop.

Definition do_op (op : handle_op) (this : nat) (s : State) : result unit :=
  match op with
  | OpReset => reset this nullptr s
  | OpDrop => destructor this s
  end.

(** The operations one after the other; the caller catches what an
    operation throws and goes on. *)
Fixpoint exercise (ops : list handle_op) (this : nat) (s : State)
    : option State :=
  match ops with
  | [] => Some s
  | op :: ops' =>
      match state_after (do_op op this s) with
      | Some s' => exercise ops' this s'
      | None => None
      end
  end.

(** [n] resets, then the destructor if [drop]. *)
Definition reset_drop_path (n : nat) (drop : bool) : list handle_op :=
  replicate n OpReset ++ (if drop then [OpDrop] else []).

(** [FileTable::open_as] and [FileTable::create_as] are declared in the
    header and defined elsewhere: they are parameters here.  Called on
    the table at [ft], each changes the registry and either returns a
    pointer ([inr]) or throws ([inl]). *)
Section Wrappers.
Context {Id Ty : Type}.
Variables FileTable_open_as FileTable_create_as
  : nat → Id → Ty → R → R * (E + ptr).

(** [return AutoClosedFileBase(&table, member(id, type))]: the handle is
    constructed at [this] from what the member function returns; nothing
    is caught. *)
Definition wrap_in_handle (member : nat → Id → Ty → R → R * (E + ptr))
    (this table : nat) (id : Id) (type : Ty) (s : State) : result unit :=
  let '(r, out) := member table id type (registry s) in
  let s' := {| handles := handles s; registry := r; closes := closes s;
               mutexes := mutexes s; lock_log := lock_log s |} in
  match out with
  | inl e => Thrown e s'
  | inr fb => construct this (Some table) fb s'
  end.

(** The free function [open_as(table, id, type)]. *)
Definition open_as (this table : nat) (id : Id) (type : Ty) (s : State)
    : result unit :=
  wrap_in_handle FileTable_open_as this table id type s.

(** The free function [create_as(table, id, type)]. *)
Definition create_as (this table : nat) (id : Id) (type : Ty) (s : State)
    : result unit :=
  wrap_in_handle FileTable_create_as this table id type s.

End Wrappers.
End Handle.

(** ** Lock guards *)

(** Modelled from the spec: the intrinsic exclusive lock of a File Object
    ([FileBase::mutex()], class [Mutex] of mutex.h).  Locking a mutex that
    is locked waits, and nothing else runs in this sequential state;
    unlocking one that is not locked is undefined. *)
Definition mutex_lock (fb : nat) (s : State) : result unit :=
  if decide (fb ∈ mutexes s) then Undefined
  else Normal tt {| handles := handles s; registry := registry s;
                    closes := closes s; mutexes := {[fb]} ∪ mutexes s;
                    lock_log := lock_log s ++ [EvLock fb] |}.

(** Modelled from the spec: the release of that lock. *)
Definition mutex_unlock (fb : nat) (s : State) : result unit :=
  if decide (fb ∈ mutexes s) then
    Normal tt {| handles := handles s; registry := registry s;
                 closes := closes s; mutexes := mutexes s ∖ {[fb]};
                 lock_log := lock_log s ++ [EvUnlock fb] |}
  else Undefined.

(** [AutoClosedFileLockGuard(AutoClosedFileBase& filebase)]: the guard
    keeps [fp = &filebase] and locks [fp->get()->mutex()]. *)
Definition AutoClosedFileLockGuard_ctor (fp : nat) (s : State) : result unit :=
  match get fp s with
  | Normal (Some fb) s' => mutex_lock fb s'
  | Normal None _ => Undefined
  | Thrown e s' => Thrown e s'
  | Undefined => Undefined
  end.

(** [~AutoClosedFileLockGuard()]: unlocks [fp->get()->mutex()], reading
    the handle again. *)
Definition AutoClosedFileLockGuard_dtor (fp : nat) (s : State) : result unit :=
  match get fp s with
  | Normal (Some fb) s' => mutex_unlock fb s'
  | Normal None _ => Undefined
  | Thrown e s' => Thrown e s'
  | Undefined => Undefined
  end.

(** A block [{ AutoClosedFileLockGuard lg(filebase); body }].  The body
    leaves by returning a value (falling off the end or an early
    [return]) or by throwing; the guard's destructor runs in both cases. *)
Definition lock_scope {A} (filebase : nat) (body : State → result A)
    (s : State) : result A :=
  match AutoClosedFileLockGuard_ctor filebase s with
  | Normal _ s1 =>
      match body s1 with
      | Normal a s2 =>
          match AutoClosedFileLockGuard_dtor filebase s2 with
          | Normal _ s3 => Normal a s3
          | Thrown e s3 => Thrown e s3
          | Undefined => Undefined
          end
      | Thrown e s2 =>
          match AutoClosedFileLockGuard_dtor filebase s2 with
          | Normal _ s3 => Thrown e s3
          | _ => Undefined
          end
      | Undefined => Undefined
      end
  | Thrown e s1 => Thrown e s1
  | Undefined => Undefined
  end.

End Program.

Arguments State : clear implicits.
Arguments result : clear implicits.
Arguments Normal {R E A} a s.
Arguments Thrown {R E A} e s.
Arguments Undefined {R E A}.

(** ** The dual lock guard *)

(** Modelled from the spec: [DoubleFileLockGuard] (files.h), the member
    [internal_guard] of [DoubleAutoClosedFileLockGuard].  File objects are
    ordered by a stable identity key, here their address; the two locks
    are taken in that order whatever the order of the arguments, and one
    object given twice is locked once.  The result lists the mutexes in
    the order they are locked. *)
Definition DoubleFileLockGuard (f1 f2 : nat) : list nat :=
  if decide (f1 = f2) then [f1]
  else if decide (f1 < f2) then [f1; f2] else [f2; f1].

(** [DoubleAutoClosedFileLockGuard(filebase1, filebase2)] initialises
    [internal_guard] with the objects that [filebase1.get()] and
    [filebase2.get()] point to, in this order; its own destructor body is
    empty.  Dereferencing a null [get()] is undefined. *)
Definition DoubleAutoClosedFileLockGuard (filebase1 filebase2 : AutoClosedFileBase)
    : option (list nat) :=
  match m_fb filebase1, m_fb filebase2 with
  | Some f1, Some f2 => Some (DoubleFileLockGuard f1 f2)
  | _, _ => None
  end.

(** What a thread does to the mutexes while it runs a dual lock scope. *)
Inductive action : Type :=
  | Acquire (fb : nat)
  | Work
  | Release (fb : nat).

Global Instance action_eq_dec : EqDecision action.
Proof. solve_decision. Defined.

(** Modelled from the spec: a Dual-Object Lock Scope locks on entry, runs
    its body and releases both locks on exit, in any order: [rev] chooses
    between the reverse of the locking order and the locking order. *)
Definition double_scope (rev : bool) (filebase1 filebase2 : AutoClosedFileBase)
    : option (list action) :=
  match DoubleAutoClosedFileLockGuard filebase1 filebase2 with
  | Some ks =>
      Some ((Acquire <$> ks) ++ [Work]
              ++ (Release <$> (if rev then reverse ks else ks)))
  | None => None
  end.

Inductive tid : Type := T1 | T2.

Global Instance tid_eq_dec : EqDecision tid.
Proof. solve_decision. Defined.

(** Two threads, what each still has to do, and who holds which mutex. *)
Record Threads : Type := mkThreads {
  prog1 : list action;
  prog2 : list action;
  owner : gmap nat tid
}.

(** Modelled from the spec: an exclusive lock shared by threads.  A thread
    takes a free mutex; on a held one it waits ([None]: no step now).  A
    mutex is released by the thread that holds it. *)
Definition run_action (t : tid) (a : action) (own : gmap nat tid)
    : option (gmap nat tid) :=
  match a with
  | Acquire k =>
      match own !! k with
      | None => Some (<[k := t]> own)
      | Some _ => None
      end
  | Work => Some own
  | Release k =>
      match own !! k with
      | Some t' => if decide (t' = t) then Some (delete k own) else None
      | None => None
      end
  end.

Definition thread_step (t : tid) (c : Threads) : option Threads :=
  match t with
  | T1 =>
      match prog1 c with
      | a :: p =>
          match run_action T1 a (owner c) with
          | Some own => Some {| prog1 := p; prog2 := prog2 c; owner := own |}
          | None => None
          end
      | [] => None
      end
  | T2 =>
      match prog2 c with
      | a :: p =>
          match run_action T2 a (owner c) with
          | Some own => Some {| prog1 := prog1 c; prog2 := p; owner := own |}
          | None => None
          end
      | [] => None
      end
  end.

(** Any interleaving: one step of either thread. *)
Inductive step : Threads → Threads → Prop :=
  | step_thread t c c' : thread_step t c = Some c' → step c c'.

Definition finished (c : Threads) : Prop := prog1 c = [] ∧ prog2 c = [].

(** No thread can move although one of them is not done. *)
Definition deadlocked (c : Threads) : Prop :=
  ¬ finished c ∧ ∀ c', ¬ step c c'.

Inductive reachable (c0 : Threads) : Threads → Prop :=
  | reach_start : reachable c0 c0
  | reach_step c c' : reachable c0 c → step c c' → reachable c0 c'.

(** How often a program locks the mutex of [fb]. *)
Definition acquisitions (fb : nat) (p : list action) : nat :=
  length (filter (λ a, a = Acquire fb) p).

(** *** The lock discipline of a thread

    What a thread holds can be read off what it still has to do: it holds
    the mutex of [k] when the first action on [k] that is left is a
    release. *)
Fixpoint holds (k : nat) (rem : list action) : bool :=
  match rem with
  | [] => false
  | Acquire k' :: rem' => if decide (k' = k) then false else holds k rem'
  | Work :: rem' => holds k rem'
  | Release k' :: rem' => if decide (k' = k) then true else holds k rem'
  end.

(** A program is disciplined when it locks only above what it holds, in
    the order of the keys, releases every mutex it locks, and releases
    none twice. *)
Fixpoint disciplined (p : list action) : Prop :=
  match p with
  | [] => True
  | Acquire k :: p' =>
      holds k p' = true
      ∧ (∀ k', k' ≠ k → holds k' p' = true → k' < k)
      ∧ disciplined p'
  | Work :: p' => disciplined p'
  | Release k :: p' => holds k p' = false ∧ disciplined p'
  end.

Definition owner_of (p1 p2 : list action) (k : nat) : option tid :=
  if holds k p1 then Some T1 else if holds k p2 then Some T2 else None.

(** The mutexes are held by the threads as their programs say, and by
    one thread at a time. *)
Definition consistent (c : Threads) : Prop :=
  disciplined (prog1 c) ∧ disciplined (prog2 c)
  ∧ ∀ k, owner c !! k = owner_of (prog1 c) (prog2 c) k
         ∧ (holds k (prog1 c) = true → holds k (prog2 c) = false).

(** ** FileTable *)

(** The concrete kinds of file object: the classes [RegularFile],
    [Symlink] and [Directory]. *)
Inductive FileType : Type := RegularFile | Symlink | Directory.

Global Instance FileType_eq_dec : EqDecision FileType.
Proof. solve_decision. Defined.

(** Modelled from the spec: what the registry uses of a File Object
    (class [FileBase] of files.h): its concrete type tag and its
    reference count. *)
Record FileBase : Type := mkFileBase {
  fb_type : FileType;
  fb_ref : nat
}.

(** [static const int MAX_NUM_CLOSED = 101, NUM_EJECT = 8]. *)
Definition MAX_NUM_CLOSED : nat := 101.
Definition NUM_EJECT : nat := 8.

Section FileTable.
Context `{Countable id_type}.

(** The data members of [class FileTable] that the registry operations
    use.  [backend] stands for what the storage behind [m_fio] and
    [m_root] holds; [finalized] is a ghost trace of the calls of
    [finalize], oldest first. *)
Record FileTable : Type := mkFileTable {
  m_files : gmap id_type FileBase;
  m_closed_ids : list id_type;
  m_flags : Z;
  backend : gset id_type;
  finalized : list id_type
}.

(** *** Configuration queries *)

Section Flags.
(** The option bits of constants.h. *)
Variables kOptionReadOnly kOptionNoAuthentication kOptionStoreTime : Z.

(** [bool is_readonly() const noexcept]. *)
Definition is_readonly (t : FileTable) : bool :=
  negb (Z.land (m_flags t) kOptionReadOnly =? 0)%Z.

(** [bool is_auth_enabled() const noexcept]. *)
Definition is_auth_enabled (t : FileTable) : bool :=
  (Z.land (m_flags t) kOptionNoAuthentication =? 0)%Z.

(** [bool is_time_stored() const noexcept]. *)
Definition is_time_stored (t : FileTable) : bool :=
  negb (Z.land (m_flags t) kOptionStoreTime =? 0)%Z.

End Flags.

(** *** The registry operations

    The header declares them; their bodies are not part of it. *)

(** Modelled from the spec: the constructor of [FileTable].  The
    configuration is fixed at construction; the table and the idle
    sequence start empty.  [root] is what the storage holds. *)
Definition FileTable_new (root : gset id_type) (flags : Z) : FileTable :=
  {| m_files := ∅; m_closed_ids := []; m_flags := flags;
     backend := root; finalized := [] |}.

Section Operations.
Context {B : Type}.

Inductive registry_error : Type :=
  | NotFound
  | TypeMismatch
  | AlreadyExists
  | BackendError (e : B)
  | HandleMisuse.

Inductive materialized : Type :=
  | Materialized
  | MatNotFound
  | MatBackendError (e : B).

(** The storage fails with [e] while it loads or creates [id]. *)
Variable io_fault : id_type → option B.

(** Modelled from the spec: the Constructor collaborator,
    [materialize(identifier, declared_type, create)]: it loads the object
    the storage holds, or creates it if requested; an identifier the
    storage does not hold is not found unless [create] is set. *)
Definition materialize (id : id_type) (create : bool) (t : FileTable)
    : materialized :=
  if decide (id ∈ backend t) then
    match io_fault id with
    | Some e => MatBackendError e
    | None => Materialized
    end
  else if create then
    match io_fault id with
    | Some e => MatBackendError e
    | None => Materialized
    end
  else MatNotFound.

(** Modelled from the spec: [open_or_create(identifier, declared_type,
    create)], the common shape of [FileTable::open_as] ([create] false)
    and [FileTable::create_as] ([create] true).  A resident object is
    reused only under its own type: it leaves the idle sequence and its
    count goes up.  An absent one is materialized and inserted with
    count 1.  The reference returned is the identifier: the table holds
    one object per identifier. *)
Definition open_or_create (id : id_type) (declared_type : FileType)
    (create : bool) (t : FileTable) : FileTable * (registry_error + id_type) :=
  match m_files t !! id with
  | Some fb =>
      if decide (fb_type fb = declared_type) then
        ({| m_files := <[id := {| fb_type := fb_type fb; fb_ref := S (fb_ref fb) |}]> (m_files t);
            m_closed_ids := filter (λ k, k ≠ id) (m_closed_ids t);
            m_flags := m_flags t; backend := backend t;
            finalized := finalized t |}, inr id)
      else (t, inl (if create then AlreadyExists else TypeMismatch))
  | None =>
      match materialize id create t with
      | Materialized =>
          ({| m_files := <[id := {| fb_type := declared_type; fb_ref := 1 |}]> (m_files t);
              m_closed_ids := m_closed_ids t;
              m_flags := m_flags t; backend := {[id]} ∪ backend t;
              finalized := finalized t |}, inr id)
      | MatNotFound => (t, inl NotFound)
      | MatBackendError e => (t, inl (BackendError e))
      end
  end.

(** Modelled from the spec: [FileTable::open_as], which opens what
    exists. *)
Definition FileTable_open_as (id : id_type) (type : FileType) (t : FileTable)
    : FileTable * (registry_error + id_type) :=
  open_or_create id type false t.

(** Modelled from the spec: [FileTable::create_as], which creates what
    is absent. *)
Definition FileTable_create_as (id : id_type) (type : FileType) (t : FileTable)
    : FileTable * (registry_error + id_type) :=
  open_or_create id type true t.

(** Modelled from the spec: eviction of one idle entry: it is removed
    from the table, handed to the Persister ([FileTable::finalize]) and
    destroyed. *)
Definition evict (t : FileTable) (id : id_type) : FileTable :=
  {| m_files := delete id (m_files t); m_closed_ids := m_closed_ids t;
     m_flags := m_flags t; backend := backend t;
     finalized := finalized t ++ [id] |}.

(** Modelled from the spec: [FileTable::eject], eviction of the oldest
    [NUM_EJECT] idle entries, or of all of them when there are fewer. *)
Definition FileTable_eject (t : FileTable) : FileTable :=
  let t' := foldl evict t (take NUM_EJECT (m_closed_ids t)) in
  {| m_files := m_files t'; m_closed_ids := drop NUM_EJECT (m_closed_ids t);
     m_flags := m_flags t'; backend := backend t';
     finalized := finalized t' |}.

(** Modelled from the spec: [FileTable::close].  The count of the object
    goes down; at zero its identifier is appended to the idle sequence,
    and an idle sequence longer than [MAX_NUM_CLOSED] is ejected from.
    Closing what is not open is a misuse and changes nothing. *)
Definition FileTable_close (id : id_type) (t : FileTable)
    : FileTable * option registry_error :=
  match m_files t !! id with
  | Some fb =>
      match fb_ref fb with
      | 0 => (t, Some HandleMisuse)
      | S n =>
          let files := <[id := {| fb_type := fb_type fb; fb_ref := n |}]> (m_files t) in
          match n with
          | S _ =>
              ({| m_files := files; m_closed_ids := m_closed_ids t;
                  m_flags := m_flags t; backend := backend t;
                  finalized := finalized t |}, None)
          | 0 =>
              let t1 := {| m_files := files;
                           m_closed_ids := m_closed_ids t ++ [id];
                           m_flags := m_flags t; backend := backend t;
                           finalized := finalized t |} in
              (if decide (MAX_NUM_CLOSED < length (m_closed_ids t1))
               then FileTable_eject t1 else t1, None)
          end
      end
  | None => (t, Some HandleMisuse)
  end.

(** Calls made on a table over its lifetime. *)
Inductive table_op : Type :=
  | OpOpen (id : id_type) (type : FileType) (create : bool)
  | OpClose (id : id_type).

Definition run_op (t : FileTable) (op : table_op) : FileTable :=
  match op with
  | OpOpen id type create => fst (open_or_create id type create t)
  | OpClose id => fst (FileTable_close id t)
  end.

Definition run_ops (ops : list table_op) (t : FileTable) : FileTable :=
  foldl run_op t ops.

End Operations.
End FileTable.

Arguments FileTable id_type {_ _}.
Arguments registry_error : clear implicits.
Arguments materialized : clear implicits.
Arguments table_op : clear implicits.

(** ** Concrete data for the examples *)

(** A [close] that always throws, and one that always returns. *)
Definition close_throws (ft fb : nat) (r : unit) : unit * option unit :=
  (r, Some tt).

Definition close_returns (ft fb : nat) (r : unit) : unit * option unit :=
  (r, None).

(** Two handles, at addresses 1 and 2, on the objects 10 and 20 of the
    table at address 0; no mutex is locked. *)
Definition two_handles : State unit :=
  {| handles := {[ 1 := {| m_ft := Some 0; m_fb := Some 10 |};
                   2 := {| m_ft := Some 0; m_fb := Some 20 |} ]};
     registry := tt; closes := []; mutexes := ∅; lock_log := [] |}.

(** The same while the mutex of object 20 is locked. *)
Definition two_handles_locked : State unit :=
  {| handles := handles two_handles; registry := tt; closes := [];
     mutexes := {[ 20 ]}; lock_log := [] |}.

(** A member function [open_as] or [create_as] that returns object 30. *)
Definition member_returns_30 (table id : nat) (type : FileType) (r : unit)
    : unit * (unit + ptr) :=
  (r, inr (Some 30)).

(** A scope body that returns the number 5 and does nothing else. *)
Definition body_returns_5 (s : State unit) : result unit unit nat :=
  Normal 5 s.

(** A storage that never fails, and one that fails on identifier 7. *)
Definition no_fault (id : nat) : option unit := None.

Definition fault_on_7 (id : nat) : option unit :=
  if decide (id = 7) then Some tt else None.

(** The objects 0 to [n - 1] are created and closed one after the other. *)
Definition open_close_each (n : nat) : list (table_op nat) :=
  flat_map (λ i, [OpOpen i RegularFile true; OpClose i]) (seq 0 n).

(** 101 objects have become idle and object 101 is open. *)
Definition crossing_ops : list (table_op nat) :=
  open_close_each 101 ++ [OpOpen 101 RegularFile true].

(** A table whose one resident object, 1, is a directory. *)
Definition one_directory : FileTable nat :=
  (FileTable_create_as no_fault 1 Directory (FileTable_new ∅ 0)).1.

(** * Properties *)

(** ** Scoped handles *)

Section HandleFacts.
Context {R E : Type}.
Variable FileTable_close : nat → nat → R → R * option E.
Implicit Types (s : State R) (h : AutoClosedFileBase).

(** A handle one of whose pointers is null is reset without a call of
    [close]. *)
Lemma reset_empty this fb s h :
  handles s !! this = Some h →
  m_ft h = nullptr ∨ m_fb h = nullptr →
  reset FileTable_close this fb s
  = Normal tt (set_handles (insert this {| m_ft := m_ft h; m_fb := fb |}) s).
Proof.
  intros Hh Hnull. unfold reset. rewrite Hh.
  destruct Hnull as [-> | ->]; [done | by destruct (m_ft h)].
Qed.

(** A handle that holds an object calls [close] once when it is reset, and
    the new pointer is stored only if [close] returns. *)
Lemma reset_holding this fb s ft old :
  handles s !! this = Some {| m_ft := Some ft; m_fb := Some old |} →
  reset FileTable_close this fb s
  = let r := FileTable_close ft old (registry s) in
    let s1 := {| handles := handles s; registry := r.1;
                 closes := closes s ++ [(ft, old)];
                 mutexes := mutexes s; lock_log := lock_log s |} in
    match r.2 with
    | Some e => Thrown e s1
    | None =>
        Normal tt (set_handles (insert this {| m_ft := Some ft; m_fb := fb |}) s1)
    end.
Proof.
  intros Hh. unfold reset, call_close. rewrite Hh. simpl.
  destruct (FileTable_close ft old (registry s)) as [r [e|]]; done.
Qed.

(** The destructor of a handle one of whose pointers is null calls
    nothing. *)
Lemma destructor_empty this s h :
  handles s !! this = Some h →
  m_ft h = nullptr ∨ m_fb h = nullptr →
  ∃ s', destructor FileTable_close this s = Normal tt s'
        ∧ closes s' = closes s ∧ registry s' = registry s
        ∧ handles s' = delete this (handles s).
Proof.
  intros Hh Hnull. unfold destructor.
  rewrite (reset_empty _ _ _ _ Hh Hnull). eexists. split; [done |].
  simpl. by rewrite delete_insert_eq.
Qed.

(** The destructor of a handle that holds an object calls [close] once
    and returns, whatever [close] does. *)
Lemma destructor_holding this s ft fb :
  handles s !! this = Some {| m_ft := Some ft; m_fb := Some fb |} →
  ∃ s', destructor FileTable_close this s = Normal tt s'
        ∧ closes s' = closes s ++ [(ft, fb)]
        ∧ handles s' = delete this (handles s).
Proof.
  intros Hh. unfold destructor. rewrite (reset_holding _ _ _ _ _ Hh). simpl.
  destruct (FileTable_close ft fb (registry s)) as [r [e|]]; simpl;
    (eexists; split; [done |]); simpl; [done |].
  by rewrite delete_insert_eq.
Qed.

(** Resets to empty of a handle whose object pointer is null do
    nothing else, however many there are and with or without a final
    drop. *)
Lemma exercise_empty n drop this s h :
  handles s !! this = Some h →
  m_fb h = nullptr →
  ∃ s', exercise FileTable_close (reset_drop_path n drop) this s = Some s'
        ∧ closes s' = closes s ∧ registry s' = registry s.
Proof.
  intros Hh Hnull. revert s Hh.
  induction n as [|n IH]; intros s Hh; simpl.
  - destruct drop; simpl; [| by eexists].
    destruct (destructor_empty this s h Hh (or_intror Hnull)) as (s' & -> & ? & ? & _).
    simpl. by eexists.
  - rewrite (reset_empty _ _ _ _ Hh (or_intror Hnull)).
    cbn [state_after].
    apply (IH (set_handles (insert this {| m_ft := m_ft h; m_fb := nullptr |}) s)).
    simpl. rewrite lookup_insert_eq. by rewrite <- Hnull; destruct h.
Qed.

End HandleFacts.

Section HandleClaims.
Context {R E : Type}.
Variable FileTable_close : nat → nat → R → R * option E.
Implicit Types (s : State R) (h : AutoClosedFileBase).

Lemma exercise_gone ops this s s' :
  handles s !! this = None →
  exercise FileTable_close ops this s = Some s' → s' = s.
Proof.
  intros Hnone. destruct ops as [|[] ops]; simpl.
  - congruence.
  - unfold reset. by rewrite Hnone.
  - unfold destructor, reset. by rewrite Hnone.
Qed.

Lemma exercise_null ops this s s' h :
  handles s !! this = Some h → m_fb h = nullptr →
  exercise FileTable_close ops this s = Some s' →
  closes s' = closes s ∧ registry s' = registry s.
Proof.
  intros Hh Hnull. revert s Hh.
  induction ops as [|op ops IH]; intros s Hh; simpl.
  - by intros [= ->].
  - destruct op; simpl.
    + rewrite (reset_empty _ _ _ _ _ Hh (or_intror Hnull)). cbn [state_after].
      intros Hex. apply IH in Hex; [done |].
      simpl. rewrite lookup_insert_eq. by rewrite <- Hnull; destruct h.
    + destruct (destructor_empty FileTable_close this s h Hh (or_intror Hnull))
        as (s1 & -> & Hc & Hr & Hd). cbn [state_after].
      intros Hex. apply exercise_gone in Hex as ->; [done |].
      rewrite Hd. apply lookup_delete_eq.
Qed.

(** C1, in the form the code satisfies.  Move construction leaves both pointers of the source
    null, so the drop of the moved-from handle calls no [close].  Move
    assignment between two distinct handles exchanges them: afterwards the
    source holds what the destination held before, so it is null exactly
    when the destination was, and its drop calls no [close] when one of
    the destination's pointers was null. *)
Theorem move_leaves_source (this other fresh : nat) s (src dst : AutoClosedFileBase) :
  handles s !! other = Some src →
  handles s !! this = Some dst →
  this ≠ other →
  handles s !! fresh = None →
  (∃ s1, move_construct (E:=E) fresh other s = Normal tt s1
         ∧ handles s1 !! fresh = Some src
         ∧ handles s1 !! other = Some {| m_ft := nullptr; m_fb := nullptr |}
         ∧ closes s1 = closes s ∧ registry s1 = registry s
         ∧ ∃ s2, destructor FileTable_close other s1 = Normal tt s2
                 ∧ closes s2 = closes s ∧ registry s2 = registry s)
  ∧ (∃ s1, move_assign (E:=E) this other s = Normal tt s1
           ∧ handles s1 !! this = Some src
           ∧ handles s1 !! other = Some dst
           ∧ closes s1 = closes s ∧ registry s1 = registry s
           ∧ (m_ft dst = nullptr ∨ m_fb dst = nullptr →
              ∃ s2, destructor FileTable_close other s1 = Normal tt s2
                    ∧ closes s2 = closes s ∧ registry s2 = registry s)).
Proof.
  intros Hsrc Hdst Hne Hfresh.
  assert (fresh ≠ other) as Hfo by (intros ->; congruence).
  split.
  - unfold move_construct. rewrite Hfresh, Hsrc.
    set (s1 := set_handles _ (set_handles _ s)).
    assert (handles s1 !! other = Some {| m_ft := nullptr; m_fb := nullptr |})
      as Ho by (simpl; apply lookup_insert_eq).
    exists s1. split_and!; try done.
    + simpl. rewrite lookup_insert_ne, lookup_insert_eq by done. by destruct src.
    + destruct (destructor_empty FileTable_close other s1 _ Ho (or_introl eq_refl))
        as (s2 & Hd & Hc & Hr & _).
      by exists s2.
  - unfold move_assign, swap. rewrite decide_False by done.
    rewrite Hdst, Hsrc.
    set (s1 := set_handles _ (set_handles _ s)).
    assert (handles s1 !! other = Some dst)
      as Ho by (simpl; rewrite lookup_insert_eq; by destruct dst).
    exists s1. split_and!; try done.
    + simpl. rewrite lookup_insert_ne, lookup_insert_eq by done. by destruct src.
    + intros Hnull.
      destruct (destructor_empty FileTable_close other s1 _ Ho Hnull)
        as (s2 & Hd & Hc & Hr & _).
      by exists s2.
Qed.

(** C2, in the form the code satisfies.  A handle holds one object and the first call of
    [close] returns.  Then, however many resets to empty follow, with or
    without a final drop, [close] is called once if anything is done at
    all, and whatever sequence of resets and drops is run, it is never
    called a second time. *)
Theorem close_fires_once (this : nat) s (ft fb : nat) (n : nat) (drop : bool) :
  handles s !! this = Some {| m_ft := Some ft; m_fb := Some fb |} →
  (FileTable_close ft fb (registry s)).2 = None →
  (∃ s', exercise FileTable_close (reset_drop_path n drop) this s = Some s'
         ∧ closes s' = closes s ++
             (if decide (reset_drop_path n drop = []) then [] else [(ft, fb)]))
  ∧ (∀ ops s', exercise FileTable_close ops this s = Some s' →
       closes s' = closes s ++ (if decide (ops = []) then [] else [(ft, fb)])).
Proof.
  intros Hh Hret.
  assert (∀ ops s', ops ≠ [] → exercise FileTable_close ops this s = Some s' →
            closes s' = closes s ++ [(ft, fb)]) as Hany.
  { intros [|op ops] s' Hne; [done |]. simpl. destruct op; simpl.
    - rewrite (reset_holding _ _ _ _ _ _ Hh). simpl. rewrite Hret.
      cbn [state_after].
      set (s1 := set_handles _ _).
      assert (handles s1 !! this = Some {| m_ft := Some ft; m_fb := nullptr |})
        as Ho by (simpl; apply lookup_insert_eq).
      intros Hex. by destruct (exercise_null _ _ _ _ _ Ho eq_refl Hex) as [-> _].
    - destruct (destructor_holding FileTable_close this s ft fb Hh)
        as (s1 & -> & Hc & Hd). cbn [state_after]. intros Hex.
      apply exercise_gone in Hex as ->; [done |].
      rewrite Hd. apply lookup_delete_eq. }
  split.
  - destruct n as [|n].
    + destruct drop; simpl.
      * destruct (destructor_holding FileTable_close this s ft fb Hh)
          as (s1 & -> & Hc & Hd). simpl. by eexists.
      * eexists. split; [done |]. by rewrite app_nil_r.
    + simpl. rewrite (reset_holding _ _ _ _ _ _ Hh). simpl. rewrite Hret.
      cbn [state_after].
      set (s1 := set_handles _ _).
      assert (handles s1 !! this = Some {| m_ft := Some ft; m_fb := nullptr |})
        as Ho by (simpl; apply lookup_insert_eq).
      destruct (exercise_empty FileTable_close n drop this s1 _ Ho eq_refl)
        as (s' & Hex & Hc & _).
      exists s'. split; [exact Hex |]. by rewrite Hc.
  - intros ops s' Hex. destruct ops as [|op ops].
    + simpl in Hex. injection Hex as <-. by rewrite app_nil_r.
    + rewrite decide_False by done.
      apply (Hany (op :: ops) s'); [done | exact Hex].
Qed.

(** C6.  The destructor of a handle returns: whatever [close] throws on
    the way is caught, nothing leaves the destructor, and the handle is
    gone afterwards. *)
Theorem destructor_never_throws (this : nat) s h :
  handles s !! this = Some h →
  (∃ s', destructor FileTable_close this s = Normal tt s'
         ∧ handles s' !! this = None)
  ∧ (∀ e s', destructor FileTable_close this s ≠ Thrown e s').
Proof.
  intros Hh.
  assert (∃ s', destructor FileTable_close this s = Normal tt s'
                ∧ handles s' !! this = None) as (s' & Hd & Hgone).
  { destruct h as [[ft|] [fb|]].
    - destruct (destructor_holding FileTable_close this s ft fb Hh)
        as (s1 & ? & _ & Hd).
      exists s1. split; [done |]. rewrite Hd. apply lookup_delete_eq.
    - edestruct (destructor_empty FileTable_close this s) as (s1 & ? & _ & _ & Hd);
        [exact Hh | by right |].
      exists s1. split; [done |]. rewrite Hd. apply lookup_delete_eq.
    - edestruct (destructor_empty FileTable_close this s) as (s1 & ? & _ & _ & Hd);
        [exact Hh | by left |].
      exists s1. split; [done |]. rewrite Hd. apply lookup_delete_eq.
    - edestruct (destructor_empty FileTable_close this s) as (s1 & ? & _ & _ & Hd);
        [exact Hh | by left |].
      exists s1. split; [done |]. rewrite Hd. apply lookup_delete_eq. }
  split; [by exists s' |]. intros e s0. by rewrite Hd.
Qed.

(** C7.  [release] returns the object pointer of the handle and leaves
    it null; neither [release] nor the later drop of the handle calls
    [close], and the registry is as it was. *)
Theorem release_detaches (this : nat) s h (fb : nat) :
  handles s !! this = Some h →
  m_fb h = Some fb →
  ∃ s1, release (E:=E) this s = Normal (Some fb) s1
        ∧ handles s1 !! this = Some {| m_ft := m_ft h; m_fb := nullptr |}
        ∧ closes s1 = closes s ∧ registry s1 = registry s
        ∧ ∃ s2, destructor FileTable_close this s1 = Normal tt s2
                ∧ closes s2 = closes s ∧ registry s2 = registry s.
Proof.
  intros Hh Hfb. unfold release. rewrite Hh, Hfb.
  set (s1 := set_handles _ s).
  assert (handles s1 !! this = Some {| m_ft := m_ft h; m_fb := nullptr |})
    as Ho by (simpl; apply lookup_insert_eq).
  exists s1. split_and!; try done.
  destruct (destructor_empty FileTable_close this s1 _ Ho (or_intror eq_refl))
    as (s2 & Hd & Hc & Hr & _).
  by exists s2.
Qed.

(** Once a handle that holds an object has seen its first [close]
    return, no run of resets to empty and drops calls [close] again. *)
Lemma exercise_holding ops (this : nat) s s' (ft fb : nat) :
  handles s !! this = Some {| m_ft := Some ft; m_fb := Some fb |} →
  (FileTable_close ft fb (registry s)).2 = None →
  exercise FileTable_close ops this s = Some s' →
  closes s' = closes s ++ (if decide (ops = []) then [] else [(ft, fb)]).
Proof.
  intros Hh Hret. destruct ops as [|op ops].
  - simpl. intros [= <-]. by rewrite app_nil_r.
  - rewrite decide_False by done. simpl. destruct op; simpl.
    + rewrite (reset_holding _ _ _ _ _ _ Hh). simpl. rewrite Hret.
      cbn [state_after].
      set (s1 := set_handles _ _).
      assert (handles s1 !! this = Some {| m_ft := Some ft; m_fb := nullptr |})
        as Ho by (simpl; apply lookup_insert_eq).
      intros Hex. by destruct (exercise_null _ _ _ _ _ Ho eq_refl Hex) as [-> _].
    + destruct (destructor_holding FileTable_close this s ft fb Hh)
        as (s1 & -> & Hc & Hd). cbn [state_after]. intros Hex.
      apply exercise_gone in Hex as ->; [done |].
      rewrite Hd. apply lookup_delete_eq.
Qed.

(** Resets to empty followed or not by a drop can always be run on a
    handle that holds an object whose first [close] returns. *)
Lemma exercise_holding_runs (n : nat) (drop : bool) (this : nat) s (ft fb : nat) :
  handles s !! this = Some {| m_ft := Some ft; m_fb := Some fb |} →
  (FileTable_close ft fb (registry s)).2 = None →
  ∃ s', exercise FileTable_close (reset_drop_path n drop) this s = Some s'.
Proof.
  intros Hh Hret. destruct n as [|n].
  - destruct drop; simpl; [| by eexists].
    destruct (destructor_holding FileTable_close this s ft fb Hh)
      as (s1 & -> & _). simpl. by eexists.
  - simpl. rewrite (reset_holding _ _ _ _ _ _ Hh). simpl. rewrite Hret.
    cbn [state_after].
    set (s1 := set_handles _ _).
    assert (handles s1 !! this = Some {| m_ft := Some ft; m_fb := nullptr |})
      as Ho by (simpl; apply lookup_insert_eq).
    destruct (exercise_empty FileTable_close n drop this s1 _ Ho eq_refl)
      as (s' & Hex & _).
    by exists s'.
Qed.

(** C10, in the form the code satisfies.  Move assignment onto a handle
    that holds an object calls no [close] and changes nothing in the
    registry: the two handles are exchanged and the source now holds the
    object.  A drop of the source calls [close] for the object once,
    whatever [close] does.  Provided the first call of [close] for the
    object returns, any run of resets to empty of the source, with or
    without a final drop, can be made and calls [close] for the object
    once if anything is done at all, and no sequence of resets and drops
    of the source calls it a second time. *)
Theorem move_assign_transfers (this other : nat) s (ft fb : nat)
    (src : AutoClosedFileBase) (n : nat) (drop : bool) :
  this ≠ other →
  handles s !! this = Some {| m_ft := Some ft; m_fb := Some fb |} →
  handles s !! other = Some src →
  ∃ s1, move_assign (E:=E) this other s = Normal tt s1
        ∧ closes s1 = closes s ∧ registry s1 = registry s
        ∧ handles s1 !! this = Some src
        ∧ handles s1 !! other = Some {| m_ft := Some ft; m_fb := Some fb |}
        ∧ (∃ s2, destructor FileTable_close other s1 = Normal tt s2
                 ∧ closes s2 = closes s ++ [(ft, fb)])
        ∧ ((FileTable_close ft fb (registry s)).2 = None →
           (∃ s2, exercise FileTable_close (reset_drop_path n drop) other s1
                  = Some s2
                  ∧ closes s2 = closes s ++
                      (if decide (reset_drop_path n drop = [])
                       then [] else [(ft, fb)]))
           ∧ (∀ ops s2, exercise FileTable_close ops other s1 = Some s2 →
                closes s2 = closes s ++
                            (if decide (ops = []) then [] else [(ft, fb)]))).
Proof.
  intros Hne Hdst Hsrc.
  unfold move_assign, swap. rewrite decide_False by done.
  rewrite Hdst, Hsrc.
  set (s1 := set_handles _ (set_handles _ s)).
  assert (handles s1 !! other = Some {| m_ft := Some ft; m_fb := Some fb |})
    as Ho by (simpl; apply lookup_insert_eq).
  exists s1. split_and!; try done.
  - simpl. rewrite lookup_insert_ne, lookup_insert_eq by done. by destruct src.
  - destruct (destructor_holding FileTable_close other s1 ft fb Ho)
      as (s2 & Hd & Hc & _).
    by exists s2.
  - intros Hret.
    assert ((FileTable_close ft fb (registry s1)).2 = None) as Hret1 by done.
    split.
    + destruct (exercise_holding_runs n drop other s1 ft fb Ho Hret1)
        as (s2 & Hex).
      exists s2. split; [done |].
      apply (exercise_holding _ _ _ _ _ _ Ho Hret1 Hex).
    + intros ops s2 Hex. apply (exercise_holding _ _ _ _ _ _ Ho Hret1 Hex).
Qed.

End HandleClaims.

(** C1 at work: the handle at 2 is move-constructed into a new handle at
    3, and moved onto the handle at 1. *)
Lemma move_leaves_source_witness :
  (∃ s1, move_construct (E:=unit) 3 2 two_handles = Normal tt s1
         ∧ handles s1 !! 3 = Some {| m_ft := Some 0; m_fb := Some 20 |}
         ∧ handles s1 !! 2 = Some {| m_ft := nullptr; m_fb := nullptr |}
         ∧ closes s1 = closes two_handles ∧ registry s1 = registry two_handles
         ∧ ∃ s2, destructor close_returns 2 s1 = Normal tt s2
                 ∧ closes s2 = closes two_handles
                 ∧ registry s2 = registry two_handles)
  ∧ (∃ s1, move_assign (E:=unit) 1 2 two_handles = Normal tt s1
           ∧ handles s1 !! 1 = Some {| m_ft := Some 0; m_fb := Some 20 |}
           ∧ handles s1 !! 2 = Some {| m_ft := Some 0; m_fb := Some 10 |}
           ∧ closes s1 = closes two_handles ∧ registry s1 = registry two_handles
           ∧ (Some 0 = nullptr ∨ Some 10 = nullptr →
              ∃ s2, destructor close_returns 2 s1 = Normal tt s2
                    ∧ closes s2 = closes two_handles
                    ∧ registry s2 = registry two_handles)).
Proof.
  apply (move_leaves_source close_returns 1 2 3 two_handles
           {| m_ft := Some 0; m_fb := Some 20 |}
           {| m_ft := Some 0; m_fb := Some 10 |});
    [reflexivity | reflexivity | lia | reflexivity].
Defined.

(** C1 as stated fails for move assignment: after [h1 = std::move(h2)]
    with [h1] holding object 10, the source [h2] holds object 10, neither
    of its pointers is null, and its drop calls [close]. *)
Lemma move_assign_source_not_null :
  ∃ s1, move_assign (E:=unit) 1 2 two_handles = Normal tt s1
        ∧ handles s1 !! 2 = Some {| m_ft := Some 0; m_fb := Some 10 |}
        ∧ ∃ s2, destructor close_returns 2 s1 = Normal tt s2
                ∧ closes s2 = [(0, 10)].
Proof.
  eexists. split; [reflexivity |]. split; [reflexivity |].
  eexists. split; reflexivity.
Qed.

(** C2 at work: three resets and the drop of the handle at 1, with a
    [close] that returns. *)
Lemma close_fires_once_witness :
  (∃ s', exercise close_returns (reset_drop_path 3 true) 1 two_handles = Some s'
         ∧ closes s' = closes two_handles ++
             (if decide (reset_drop_path 3 true = []) then [] else [(0, 10)]))
  ∧ (∀ ops s', exercise close_returns ops 1 two_handles = Some s' →
       closes s' = closes two_handles ++
                   (if decide (ops = []) then [] else [(0, 10)])).
Proof.
  apply (close_fires_once close_returns 1 two_handles 0 10 3 true);
    reflexivity.
Defined.

(** C2 as stated fails when [close] throws: [reset] leaves the object
    pointer in place, and the drop that follows calls [close] for the
    same object a second time. *)
Lemma close_fires_twice :
  ∃ s', exercise close_throws [OpReset; OpDrop] 1 two_handles = Some s'
        ∧ closes s' = [(0, 10); (0, 10)].
Proof. eexists. split; reflexivity. Qed.

(** C6 at work: the drop of the handle at 1 with a [close] that throws. *)
Lemma destructor_never_throws_witness :
  (∃ s', destructor close_throws 1 two_handles = Normal tt s'
         ∧ handles s' !! 1 = None)
  ∧ (∀ e s', destructor close_throws 1 two_handles ≠ Thrown e s').
Proof.
  apply (destructor_never_throws close_throws 1 two_handles
           {| m_ft := Some 0; m_fb := Some 10 |}).
  reflexivity.
Defined.

(** C7 at work: [release] on the handle at 1, then its drop. *)
Lemma release_detaches_witness :
  ∃ s1, release (E:=unit) 1 two_handles = Normal (Some 10) s1
        ∧ handles s1 !! 1 = Some {| m_ft := Some 0; m_fb := nullptr |}
        ∧ closes s1 = closes two_handles ∧ registry s1 = registry two_handles
        ∧ ∃ s2, destructor close_throws 1 s1 = Normal tt s2
                ∧ closes s2 = closes two_handles
                ∧ registry s2 = registry two_handles.
Proof.
  apply (release_detaches close_throws 1 two_handles
           {| m_ft := Some 0; m_fb := Some 10 |} 10); reflexivity.
Defined.

(** C10 at work: [h1 = std::move(h2)] while [h1] holds object 10, then
    two resets and the drop of [h2], with a [close] that returns. *)
Lemma move_assign_transfers_witness :
  ∃ s1, move_assign (E:=unit) 1 2 two_handles = Normal tt s1
        ∧ closes s1 = closes two_handles ∧ registry s1 = registry two_handles
        ∧ handles s1 !! 1 = Some {| m_ft := Some 0; m_fb := Some 20 |}
        ∧ handles s1 !! 2 = Some {| m_ft := Some 0; m_fb := Some 10 |}
        ∧ (∃ s2, destructor close_returns 2 s1 = Normal tt s2
                 ∧ closes s2 = closes two_handles ++ [(0, 10)])
        ∧ (∃ s2, exercise close_returns (reset_drop_path 2 true) 2 s1 = Some s2
                 ∧ closes s2 = closes two_handles ++ [(0, 10)])
        ∧ (∀ ops s2, exercise close_returns ops 2 s1 = Some s2 →
             closes s2 = closes two_handles ++
                         (if decide (ops = []) then [] else [(0, 10)])).
Proof.
  destruct (move_assign_transfers close_returns 1 2 two_handles 0 10
              {| m_ft := Some 0; m_fb := Some 20 |} 2 true)
    as (s1 & Hmove & Hc & Hr & H1 & H2 & Hdrop & Hseq);
    [lia | reflexivity | reflexivity |].
  destruct (Hseq eq_refl) as [Hpath Hany].
  exists s1. repeat (split; [assumption |]). exact Hany.
Defined.

(** C10 as stated fails when [close] throws: after
    [h1 = std::move(h2)] with [h1] holding object 10, a reset to empty of
    [h2] calls [close] for object 10 and leaves the pointer in place, and
    the drop of [h2] calls [close] for it a second time. *)
Lemma move_assign_obligation_twice :
  ∃ s1 s2, move_assign (E:=unit) 1 2 two_handles = Normal tt s1
           ∧ exercise close_throws [OpReset; OpDrop] 2 s1 = Some s2
           ∧ closes s2 = [(0, 10); (0, 10)].
Proof. eexists _, _. split; [reflexivity |]. split; reflexivity. Qed.

(** ** The single lock guard *)

Section LockScopeClaims.
Context {R E A : Type}.
Implicit Types (s : State R).

Lemma AutoClosedFileLockGuard_ctor_locks (fp fb : nat) s h :
  handles s !! fp = Some h → m_fb h = Some fb → fb ∉ mutexes s →
  AutoClosedFileLockGuard_ctor (E:=E) fp s
  = Normal tt {| handles := handles s; registry := registry s;
                 closes := closes s; mutexes := {[fb]} ∪ mutexes s;
                 lock_log := lock_log s ++ [EvLock fb] |}.
Proof.
  intros Hh Hfb Hfree. unfold AutoClosedFileLockGuard_ctor, get, mutex_lock.
  rewrite Hh, Hfb. by rewrite decide_False.
Qed.

Lemma AutoClosedFileLockGuard_dtor_unlocks (fp fb : nat) s h :
  handles s !! fp = Some h → m_fb h = Some fb → fb ∈ mutexes s →
  AutoClosedFileLockGuard_dtor (E:=E) fp s
  = Normal tt {| handles := handles s; registry := registry s;
                 closes := closes s; mutexes := mutexes s ∖ {[fb]};
                 lock_log := lock_log s ++ [EvUnlock fb] |}.
Proof.
  intros Hh Hfb Hheld. unfold AutoClosedFileLockGuard_dtor, get, mutex_unlock.
  rewrite Hh, Hfb. by rewrite decide_True.
Qed.

(** What the guard does keep.  It locks the mutex of the object its
    handle points to once, on construction.  If, when the body is left, by
    a return or by an exception, the handle still points to that object
    and the mutex is still locked, the destructor unlocks that mutex, the
    scope ends the way the body ended, and the mutex is not locked
    afterwards. *)
Theorem lock_scope_releases (fp fb : nat) (body : State R → result R E A) s h :
  handles s !! fp = Some h →
  m_fb h = Some fb →
  fb ∉ mutexes s →
  (∀ s1, AutoClosedFileLockGuard_ctor (E:=E) fp s = Normal tt s1 →
     ∃ s2 h2, state_after (body s1) = Some s2
              ∧ handles s2 !! fp = Some h2 ∧ m_fb h2 = Some fb
              ∧ fb ∈ mutexes s2) →
  ∃ s1 s2 s3,
    AutoClosedFileLockGuard_ctor (E:=E) fp s = Normal tt s1
    ∧ lock_log s1 = lock_log s ++ [EvLock fb]
    ∧ mutexes s1 = {[fb]} ∪ mutexes s
    ∧ state_after (body s1) = Some s2
    ∧ AutoClosedFileLockGuard_dtor (E:=E) fp s2 = Normal tt s3
    ∧ lock_log s3 = lock_log s2 ++ [EvUnlock fb]
    ∧ mutexes s3 = mutexes s2 ∖ {[fb]}
    ∧ (fb ∉ mutexes s3)
    ∧ lock_scope fp body s
      = match body s1 with
        | Normal a _ => Normal a s3
        | Thrown e _ => Thrown e s3
        | Undefined => Undefined
        end.
Proof.
  intros Hh Hfb Hfree Hbody.
  pose proof (AutoClosedFileLockGuard_ctor_locks fp fb s h Hh Hfb Hfree) as Hc.
  destruct (Hbody _ Hc) as (s2 & h2 & Hs2 & Hh2 & Hfb2 & Hheld).
  pose proof (AutoClosedFileLockGuard_dtor_unlocks fp fb s2 h2 Hh2 Hfb2 Hheld) as Hd.
  eexists _, s2, _. split_and!; try done.
  - simpl. apply not_elem_of_difference. right. by apply elem_of_singleton.
  - unfold lock_scope. rewrite Hc.
    destruct (body _) as [a s2' | e s2' |]; simpl in Hs2; [| | done];
      injection Hs2 as ->; by rewrite Hd.
Qed.

End LockScopeClaims.

(** A body that throws under a guard on the handle at 1. *)
Lemma lock_scope_releases_witness :
  ∃ s1 s2 s3,
    AutoClosedFileLockGuard_ctor (E:=unit) 1 two_handles = Normal tt s1
    ∧ lock_log s1 = lock_log two_handles ++ [EvLock 10]
    ∧ mutexes s1 = {[10]} ∪ mutexes two_handles
    ∧ state_after ((λ s, Thrown (A:=nat) tt s) s1) = Some s2
    ∧ AutoClosedFileLockGuard_dtor (E:=unit) 1 s2 = Normal tt s3
    ∧ lock_log s3 = lock_log s2 ++ [EvUnlock 10]
    ∧ mutexes s3 = mutexes s2 ∖ {[10]}
    ∧ (10 ∉ mutexes s3)
    ∧ lock_scope 1 (λ s, Thrown (A:=nat) tt s) two_handles
      = match (λ s, Thrown (A:=nat) tt s) s1 with
        | Normal a _ => Normal a s3
        | Thrown e _ => Thrown e s3
        | Undefined => Undefined
        end.
Proof.
  apply (lock_scope_releases 1 10 (λ s, Thrown (A:=nat) tt s) two_handles
           {| m_ft := Some 0; m_fb := Some 10 |}).
  - reflexivity.
  - reflexivity.
  - vm_compute. intros Hin. discriminate Hin.
  - intros s1 Hs1. injection Hs1 as <-.
    eexists _, _. split; [reflexivity |]. split; [reflexivity |].
    split; [reflexivity |]. vm_compute. reflexivity.
Defined.

(** C9.  A lock scope should release on exit the lock it acquired on
    construction; the destructor of the guard reads the handle again
    instead.  The guard is on the handle at 1, which points to object 10;
    the mutex of object 20 is locked by an enclosing scope.  The body
    swaps the handles at 1 and 2.  The destructor unlocks the mutex of
    object 20: the scope ends with the mutex of object 10, the one it
    locked, still locked.  With the enclosing scope written out, a guard
    on the handle at 2, the inner scope unlocks the mutex the outer one
    locked, and the outer one the mutex the inner one locked. *)
Lemma lock_scope_leaves_locked :
  (∃ s3, lock_scope (E:=unit) 1 (swap 1 2) two_handles_locked = Normal tt s3
         ∧ lock_log s3 = [EvLock 10; EvUnlock 20]
         ∧ 10 ∈ mutexes s3)
  ∧ (∃ s4, lock_scope (E:=unit) 2 (lock_scope 1 (swap 1 2)) two_handles
           = Normal tt s4
           ∧ lock_log s4 = [EvLock 20; EvLock 10; EvUnlock 20; EvUnlock 10]).
Proof.
  split.
  - eexists. split; [vm_compute; reflexivity |].
    split; [reflexivity |]. vm_compute. reflexivity.
  - eexists. split; [vm_compute; reflexivity | reflexivity].
Qed.

(** ** The dual lock guard *)

(** The order of locking does not depend on the order of the arguments. *)
Lemma DoubleFileLockGuard_comm (f1 f2 : nat) :
  DoubleFileLockGuard f1 f2 = DoubleFileLockGuard f2 f1.
Proof.
  unfold DoubleFileLockGuard. repeat case_decide; try done; try lia.
  by subst.
Qed.

Lemma holds_other (k k' : nat) (a : action) (p : list action) :
  a = Acquire k ∨ a = Release k → k' ≠ k →
  holds k' (a :: p) = holds k' p.
Proof. intros [-> | ->] Hne; simpl; by rewrite decide_False. Qed.

(** A step keeps the threads consistent. *)
Lemma consistent_step (c c' : Threads) :
  consistent c → step c c' → consistent c'.
Proof.
  intros (Hd1 & Hd2 & Hown) Hstep. destruct Hstep as [t c c' Hstep].
  destruct c as [q1 q2 own]. simpl in *.
  destruct t; simpl in Hstep.
  - destruct q1 as [|a q1]; [done |].
    destruct (run_action T1 a own) as [own'|] eqn:Hrun; [| done].
    injection Hstep as <-. destruct a as [k | | k]; simpl in *.
    + destruct (own !! k) eqn:Hk; [done |]. injection Hrun as <-.
      destruct Hd1 as (Hrel & _ & Hd1).
      pose proof (Hown k) as [Hok _]. rewrite Hk in Hok.
      unfold owner_of in Hok. simpl in Hok. rewrite decide_True in Hok by done.
      destruct (holds k q2) eqn:Hk2; [done |].
      split_and!; try done. intros k'. unfold owner_of. simpl.
      destruct (decide (k = k')) as [<- | Hne].
      * rewrite lookup_insert_eq, Hrel. done.
      * rewrite lookup_insert_ne by done.
        destruct (Hown k') as [Ho Hx]. unfold owner_of in Ho. simpl in *.
        by rewrite decide_False in Ho, Hx by done.
    + injection Hrun as <-. split_and!; try done.
    + destruct (own !! k) as [t'|] eqn:Hk; [| done].
      destruct (decide (t' = T1)) as [-> |]; [| done]. injection Hrun as <-.
      destruct Hd1 as (Hrel & Hd1).
      pose proof (Hown k) as [_ Hx]. simpl in Hx. rewrite decide_True in Hx by done.
      split_and!; try done. intros k'. unfold owner_of. simpl.
      destruct (decide (k = k')) as [<- | Hne].
      * rewrite lookup_delete_eq, Hrel, Hx by done. done.
      * rewrite lookup_delete_ne by done.
        destruct (Hown k') as [Ho Hx']. unfold owner_of in Ho. simpl in *.
        by rewrite decide_False in Ho, Hx' by done.
  - destruct q2 as [|a q2]; [done |].
    destruct (run_action T2 a own) as [own'|] eqn:Hrun; [| done].
    injection Hstep as <-. destruct a as [k | | k]; simpl in *.
    + destruct (own !! k) eqn:Hk; [done |]. injection Hrun as <-.
      destruct Hd2 as (Hrel & _ & Hd2).
      pose proof (Hown k) as [Hok _]. rewrite Hk in Hok.
      unfold owner_of in Hok. simpl in Hok. rewrite decide_True in Hok by done.
      destruct (holds k q1) eqn:Hk1; [done |].
      split_and!; try done. intros k'. unfold owner_of. simpl.
      destruct (decide (k = k')) as [<- | Hne].
      * rewrite lookup_insert_eq, Hk1, Hrel. done.
      * rewrite lookup_insert_ne by done.
        destruct (Hown k') as [Ho Hx]. unfold owner_of in Ho. simpl in *.
        by rewrite decide_False in Ho, Hx by done.
    + injection Hrun as <-. split_and!; try done.
    + destruct (own !! k) as [t'|] eqn:Hk; [| done].
      destruct (decide (t' = T2)) as [-> |]; [| done]. injection Hrun as <-.
      destruct Hd2 as (Hrel & Hd2).
      pose proof (Hown k) as [Hok Hx]. rewrite Hk in Hok.
      unfold owner_of in Hok. simpl in Hok, Hx. rewrite decide_True in Hok, Hx by done.
      destruct (holds k q1) eqn:Hk1; [done |].
      split_and!; try done. intros k'. unfold owner_of. simpl.
      destruct (decide (k = k')) as [<- | Hne].
      * rewrite lookup_delete_eq, Hk1, Hrel. done.
      * rewrite lookup_delete_ne by done.
        destruct (Hown k') as [Ho Hx']. unfold owner_of in Ho. simpl in *.
        by rewrite decide_False in Ho, Hx' by done.
Qed.

(** Consistent threads are never deadlocked: a thread that cannot move
    waits for a mutex the other one holds, and two threads that wait for
    each other would each hold a mutex above the one it waits for. *)
Lemma consistent_not_deadlocked (c : Threads) :
  consistent c → ¬ deadlocked c.
Proof.
  intros (Hd1 & Hd2 & Hown) [Hnf Hstuck].
  destruct c as [q1 q2 own]. unfold finished in Hnf. simpl in *.
  assert (q1 = [] ∨ ∃ k q, q1 = Acquire k :: q ∧ holds k q2 = true) as Hw1.
  { destruct q1 as [|[k | | k] q]; [by left | | |].
    - destruct (holds k q2) eqn:Hk2; [right; by exists k, q |].
      exfalso. destruct (Hown k) as [Hok _]. unfold owner_of in Hok. simpl in Hok.
      rewrite decide_True, Hk2 in Hok by done.
      apply (Hstuck {| prog1 := q; prog2 := q2; owner := <[k:=T1]> own |}).
      apply (step_thread T1). simpl. by rewrite Hok.
    - exfalso. apply (Hstuck {| prog1 := q; prog2 := q2; owner := own |}).
      by apply (step_thread T1).
    - exfalso. destruct (Hown k) as [Hok _]. unfold owner_of in Hok. simpl in Hok.
      rewrite decide_True in Hok by done.
      apply (Hstuck {| prog1 := q; prog2 := q2; owner := delete k own |}).
      apply (step_thread T1). simpl. rewrite Hok. by rewrite decide_True. }
  assert (q2 = [] ∨ ∃ k q, q2 = Acquire k :: q ∧ holds k q1 = true) as Hw2.
  { destruct q2 as [|[k | | k] q]; [by left | | |].
    - destruct (holds k q1) eqn:Hk1; [right; by exists k, q |].
      exfalso. destruct (Hown k) as [Hok _]. unfold owner_of in Hok. simpl in Hok.
      rewrite decide_True, Hk1 in Hok by done.
      apply (Hstuck {| prog1 := q1; prog2 := q; owner := <[k:=T2]> own |}).
      apply (step_thread T2). simpl. by rewrite Hok.
    - exfalso. apply (Hstuck {| prog1 := q1; prog2 := q; owner := own |}).
      by apply (step_thread T2).
    - exfalso. destruct (Hown k) as [Hok Hx]. unfold owner_of in Hok.
      simpl in Hok, Hx. rewrite decide_True in Hok, Hx by done.
      destruct (holds k q1) eqn:Hk1; [by specialize (Hx eq_refl) |].
      apply (Hstuck {| prog1 := q1; prog2 := q; owner := delete k own |}).
      apply (step_thread T2). simpl. rewrite Hok. by rewrite decide_True. }
  destruct Hw1 as [-> | (k1 & q1' & -> & Hk1)];
    destruct Hw2 as [-> | (k2 & q2' & -> & Hk2)]; simpl in *; try done.
  - by apply Hnf.
  - destruct (decide (k1 = k2)); [done |].
    destruct (decide (k2 = k1)); [done |].
    destruct Hd1 as (_ & Hord1 & _). destruct Hd2 as (_ & Hord2 & _).
    specialize (Hord1 k2). specialize (Hord2 k1).
    assert (k2 < k1) by auto. assert (k1 < k2) by auto. lia.
Qed.

Lemma reachable_consistent (c0 c : Threads) :
  consistent c0 → reachable c0 c → consistent c.
Proof.
  intros Hc0 Hreach. induction Hreach as [| c c' _ IH Hstep]; [done |].
  by eapply consistent_step.
Qed.

(** The program of a dual lock scope is disciplined, and nothing is held
    when it starts. *)
Lemma double_scope_disciplined (rev : bool) (h1 h2 : AutoClosedFileBase)
    (p : list action) :
  double_scope rev h1 h2 = Some p →
  disciplined p ∧ ∀ k, holds k p = false.
Proof.
  unfold double_scope, DoubleAutoClosedFileLockGuard, DoubleFileLockGuard.
  destruct (m_fb h1) as [f1|], (m_fb h2) as [f2|]; try done.
  intros [= <-]. repeat case_decide; destruct rev; simpl;
    (split; [split_and!; try done; try (intros k' ? ?) | intros k]);
    repeat case_decide; subst; try done; lia.
Qed.

(** C8.  One thread runs a dual lock scope on the handles of the objects
    [a] and [b] in this order, another on the same handles in the other
    order.  Both lock the mutexes in one and the same order, no state the
    two threads can reach by any interleaving is a deadlock, and each
    thread locks the mutex of [a] once and the mutex of [b] once, also
    when [a] and [b] are one object. *)
Theorem dual_lock_scope_no_deadlock (hA hB : AutoClosedFileBase) (a b : nat)
    (r1 r2 : bool) :
  m_fb hA = Some a →
  m_fb hB = Some b →
  ∃ ks p1 p2,
    DoubleAutoClosedFileLockGuard hA hB = Some ks
    ∧ DoubleAutoClosedFileLockGuard hB hA = Some ks
    ∧ double_scope r1 hA hB = Some p1
    ∧ double_scope r2 hB hA = Some p2
    ∧ (∀ c, reachable {| prog1 := p1; prog2 := p2; owner := ∅ |} c →
            ¬ deadlocked c)
    ∧ acquisitions a p1 = 1 ∧ acquisitions b p1 = 1
    ∧ acquisitions a p2 = 1 ∧ acquisitions b p2 = 1.
Proof.
  intros Ha Hb.
  assert (DoubleAutoClosedFileLockGuard hA hB = Some (DoubleFileLockGuard a b))
    as Hg1 by (unfold DoubleAutoClosedFileLockGuard; by rewrite Ha, Hb).
  assert (DoubleAutoClosedFileLockGuard hB hA = Some (DoubleFileLockGuard a b))
    as Hg2.
  { unfold DoubleAutoClosedFileLockGuard. rewrite Ha, Hb.
    by rewrite DoubleFileLockGuard_comm. }
  destruct (double_scope r1 hA hB) as [p1|] eqn:Hp1;
    [| unfold double_scope in Hp1; by rewrite Hg1 in Hp1].
  destruct (double_scope r2 hB hA) as [p2|] eqn:Hp2;
    [| unfold double_scope in Hp2; by rewrite Hg2 in Hp2].
  exists (DoubleFileLockGuard a b), p1, p2.
  split; [done |]. split; [done |]. split; [done |]. split; [done |].
  split.
  - intros c Hreach. apply consistent_not_deadlocked.
    apply (reachable_consistent {| prog1 := p1; prog2 := p2; owner := ∅ |});
      [| done].
    destruct (double_scope_disciplined _ _ _ _ Hp1) as [Hd1 Hf1].
    destruct (double_scope_disciplined _ _ _ _ Hp2) as [Hd2 Hf2].
    split_and!; try done. intros k. unfold owner_of. simpl.
    by rewrite lookup_empty, Hf1, Hf2.
  - unfold double_scope in Hp1, Hp2. rewrite Hg1 in Hp1. rewrite Hg2 in Hp2.
    injection Hp1 as <-. injection Hp2 as <-.
    unfold acquisitions, DoubleFileLockGuard.
    destruct (decide (a = b)) as [<- | Hne]; [| destruct (decide (a < b))];
      destruct r1, r2; simpl; rewrite !filter_cons, !filter_nil;
      repeat case_decide; try done; congruence.
Qed.

(** C8 at work: the handles of the objects 10 and 20. *)
Lemma dual_lock_scope_no_deadlock_witness :
  ∃ ks p1 p2,
    DoubleAutoClosedFileLockGuard {| m_ft := Some 0; m_fb := Some 20 |}
      {| m_ft := Some 0; m_fb := Some 10 |} = Some ks
    ∧ DoubleAutoClosedFileLockGuard {| m_ft := Some 0; m_fb := Some 10 |}
        {| m_ft := Some 0; m_fb := Some 20 |} = Some ks
    ∧ double_scope true {| m_ft := Some 0; m_fb := Some 20 |}
        {| m_ft := Some 0; m_fb := Some 10 |} = Some p1
    ∧ double_scope false {| m_ft := Some 0; m_fb := Some 10 |}
        {| m_ft := Some 0; m_fb := Some 20 |} = Some p2
    ∧ (∀ c, reachable {| prog1 := p1; prog2 := p2; owner := ∅ |} c →
            ¬ deadlocked c)
    ∧ acquisitions 20 p1 = 1 ∧ acquisitions 10 p1 = 1
    ∧ acquisitions 20 p2 = 1 ∧ acquisitions 10 p2 = 1.
Proof.
  apply (dual_lock_scope_no_deadlock
           {| m_ft := Some 0; m_fb := Some 20 |}
           {| m_ft := Some 0; m_fb := Some 10 |} 20 10 true false);
    reflexivity.
Defined.

(** A handle paired with itself: one mutex, locked once. *)
Example dual_lock_self_pair :
  double_scope true {| m_ft := Some 0; m_fb := Some 10 |}
    {| m_ft := Some 0; m_fb := Some 10 |}
  = Some [Acquire 10; Work; Release 10].
Proof. reflexivity. Qed.

(** The threads of this model do deadlock when each nests two single
    locks in its own order: the order of locking is what the dual guard
    adds. *)
Example nested_single_locks_deadlock :
  ∃ c, reachable
         {| prog1 := [Acquire 10; Acquire 20; Work; Release 20; Release 10];
            prog2 := [Acquire 20; Acquire 10; Work; Release 10; Release 20];
            owner := ∅ |} c
       ∧ deadlocked c.
Proof.
  exists {| prog1 := [Acquire 20; Work; Release 20; Release 10];
            prog2 := [Acquire 10; Work; Release 10; Release 20];
            owner := <[20:=T2]> (<[10:=T1]> ∅) |}.
  split.
  - eapply reach_step; [eapply reach_step; [apply reach_start |] |].
    + by apply (step_thread T1).
    + by apply (step_thread T2).
  - split.
    + intros [Hp _]. discriminate Hp.
    + intros c' Hstep. inversion Hstep as [t ? ? Hts]; subst.
      destruct t; vm_compute in Hts; discriminate Hts.
Qed.

(** ** The registry *)

Section RegistryFacts.
Context `{Countable id_type} {B : Type}.
Variable io_fault : id_type → option B.
Implicit Types (t : FileTable id_type) (id k : id_type).

Lemma foldl_evict_fields t (l : list id_type) :
  m_closed_ids (foldl evict t l) = m_closed_ids t
  ∧ m_flags (foldl evict t l) = m_flags t
  ∧ backend (foldl evict t l) = backend t
  ∧ finalized (foldl evict t l) = finalized t ++ l.
Proof.
  revert t. induction l as [|x l IH]; intros t; simpl.
  - by rewrite app_nil_r.
  - destruct (IH (evict t x)) as (-> & -> & -> & ->). simpl.
    by rewrite <- app_assoc.
Qed.

Lemma foldl_evict_files t (l : list id_type) k :
  m_files (foldl evict t l) !! k
  = if decide (k ∈ l) then None else m_files t !! k.
Proof.
  revert t. induction l as [|x l IH]; intros t.
  - destruct (decide (k ∈ [])) as [Hin |]; [by apply elem_of_nil in Hin | done].
  - cbn [foldl]. rewrite IH. simpl.
    destruct (decide (k ∈ l)) as [Hin | Hout],
             (decide (k ∈ x :: l)) as [Hin' | Hout']; try done.
    + exfalso. apply Hout'. by apply elem_of_cons; right.
    + apply elem_of_cons in Hin' as [-> | Hin']; [| done].
      apply lookup_delete_eq.
    + apply lookup_delete_ne. intros ->. apply Hout'. apply elem_of_cons; by left.
Qed.

Lemma eject_flags t : m_flags (FileTable_eject t) = m_flags t.
Proof. unfold FileTable_eject. simpl. apply foldl_evict_fields. Qed.

Lemma close_flags id t : m_flags (FileTable_close (B:=B) id t).1 = m_flags t.
Proof.
  unfold FileTable_close.
  destruct (m_files t !! id) as [fb|]; [| done].
  destruct (fb_ref fb) as [|[|n]]; try done. simpl.
  case_decide; [| done]. by rewrite eject_flags.
Qed.

Lemma open_flags id ty create t :
  m_flags (open_or_create io_fault id ty create t).1 = m_flags t.
Proof.
  unfold open_or_create.
  destruct (m_files t !! id) as [fb|].
  - by case_decide.
  - by destruct (materialize io_fault id create t).
Qed.

Lemma run_ops_flags ops t : m_flags (run_ops io_fault ops t) = m_flags t.
Proof.
  revert t. induction ops as [|op ops IH]; intros t; [done |].
  unfold run_ops in *. simpl. rewrite IH.
  destruct op; simpl; [apply open_flags | apply close_flags].
Qed.

(** [close] keeps the idle sequence within its bound. *)
Lemma close_idle_bound id t :
  length (m_closed_ids t) ≤ MAX_NUM_CLOSED →
  length (m_closed_ids (FileTable_close (B:=B) id t).1) ≤ MAX_NUM_CLOSED.
Proof.
  intros Hlen. unfold FileTable_close.
  destruct (m_files t !! id) as [fb|]; [| done].
  destruct (fb_ref fb) as [|[|n]]; try done. simpl.
  case_decide as Hover; simpl.
  - rewrite length_drop, length_app. simpl. unfold MAX_NUM_CLOSED, NUM_EJECT in *. lia.
  - lia.
Qed.

Lemma open_idle_bound id ty create t :
  length (m_closed_ids t) ≤ MAX_NUM_CLOSED →
  length (m_closed_ids (open_or_create io_fault id ty create t).1)
  ≤ MAX_NUM_CLOSED.
Proof.
  intros Hlen. unfold open_or_create.
  destruct (m_files t !! id) as [fb|].
  - case_decide; [| done]. simpl.
    pose proof (length_filter (λ k, k ≠ id) (m_closed_ids t)). lia.
  - by destruct (materialize io_fault id create t).
Qed.

Lemma run_ops_idle_bound ops t :
  length (m_closed_ids t) ≤ MAX_NUM_CLOSED →
  length (m_closed_ids (run_ops io_fault ops t)) ≤ MAX_NUM_CLOSED.
Proof.
  revert t. induction ops as [|op ops IH]; intros t Hlen; [done |].
  unfold run_ops in *. simpl. apply IH.
  destruct op; simpl; [by apply open_idle_bound | by apply close_idle_bound].
Qed.

(** C3.  On a table that has been used in any way since it was made, the
    idle sequence is at most [MAX_NUM_CLOSED] long after every [close].
    A [close] that makes an object idle and the sequence longer than that
    evicts the [NUM_EJECT] oldest idle entries: they leave the sequence
    and the table and are finalized, oldest first, and nothing else
    changes in the table.  In general [eject] evicts [NUM_EJECT] entries,
    or all of them when fewer are idle. *)
Theorem idle_cache_bound (root : gset id_type) (flags : Z)
    (ops : list (table_op id_type)) id :
  let t := run_ops io_fault ops (FileTable_new root flags) in
  let t' := (FileTable_close (B:=B) id t).1 in
  let idle := m_closed_ids t ++ [id] in
  length (m_closed_ids t') ≤ MAX_NUM_CLOSED
  ∧ ((∃ fb, m_files t !! id = Some fb ∧ fb_ref fb = 1) →
     MAX_NUM_CLOSED < length idle →
     length (take NUM_EJECT idle) = NUM_EJECT
     ∧ m_closed_ids t' = drop NUM_EJECT idle
     ∧ finalized t' = finalized t ++ take NUM_EJECT idle
     ∧ (∀ k, k ∈ take NUM_EJECT idle → m_files t' !! k = None)
     ∧ (∀ k, k ∉ take NUM_EJECT idle → k ≠ id →
             m_files t' !! k = m_files t !! k))
  ∧ (∀ t0 : FileTable id_type,
       m_closed_ids (FileTable_eject t0) = drop NUM_EJECT (m_closed_ids t0)
       ∧ finalized (FileTable_eject t0)
         = finalized t0 ++ take NUM_EJECT (m_closed_ids t0)
       ∧ length (take NUM_EJECT (m_closed_ids t0))
         = NUM_EJECT `min` length (m_closed_ids t0)).
Proof.
  intros t t' idle. split_and!.
  - apply close_idle_bound, run_ops_idle_bound. simpl. unfold MAX_NUM_CLOSED. lia.
  - intros (fb & Hfb & Hone) Hover. subst t'. unfold FileTable_close.
    rewrite Hfb, Hone. simpl. rewrite decide_True by done.
    unfold FileTable_eject. simpl.
    match goal with |- context [foldl evict ?x _] => set (t1 := x) end.
    destruct (foldl_evict_fields t1 (take NUM_EJECT idle)) as (_ & _ & _ & Hfin).
    split_and!; try done.
    + rewrite length_take. unfold MAX_NUM_CLOSED, NUM_EJECT in *. lia.
    + intros k Hk. rewrite foldl_evict_files. by rewrite decide_True.
    + intros k Hk Hne. rewrite foldl_evict_files. rewrite decide_False by done.
      simpl. by rewrite lookup_insert_ne.
  - intros t0.
    destruct (foldl_evict_fields t0 (take NUM_EJECT (m_closed_ids t0)))
      as (_ & _ & _ & Hfin).
    split_and!; [done | exact Hfin | apply length_take].
Qed.

(** C4.  [open_as] of an identifier that neither the table nor the
    storage holds fails with [NotFound].  When the resident object has
    another type than the declared one, [open_as] fails with
    [TypeMismatch] and [create_as] with [AlreadyExists], and the table is
    as it was; so does [open_as] after a [create_as] of the identifier
    under another type has succeeded.  A failure of the storage reaches
    the caller as it is, both from the member function and through the
    free functions that wrap the result in a handle. *)
Theorem open_failures id (ty : FileType) (create : bool) t :
  (m_files t !! id = None → id ∉ backend t →
     FileTable_open_as io_fault id ty t = (t, inl NotFound))
  ∧ (∀ fb, m_files t !! id = Some fb → fb_type fb ≠ ty →
       FileTable_open_as io_fault id ty t = (t, inl TypeMismatch)
       ∧ FileTable_create_as io_fault id ty t = (t, inl AlreadyExists))
  ∧ (∀ ty' t1, ty' ≠ ty →
       FileTable_create_as io_fault id ty' t = (t1, inr id) →
       FileTable_open_as io_fault id ty t1 = (t1, inl TypeMismatch))
  ∧ (∀ e, m_files t !! id = None →
       materialize io_fault id create t = MatBackendError e →
       open_or_create io_fault id ty create t = (t, inl (BackendError e)))
  ∧ (∀ (R E : Type) (member : nat → id_type → FileType → R → R * (E + ptr))
       (this table : nat) (s : State R) (r : R) (e : E),
       member table id ty (registry s) = (r, inl e) →
       let s' := {| handles := handles s; registry := r; closes := closes s;
                    mutexes := mutexes s; lock_log := lock_log s |} in
       open_as member this table id ty s = Thrown e s'
       ∧ create_as member this table id ty s = Thrown e s').
Proof.
  unfold FileTable_open_as, FileTable_create_as. split_and!.
  - intros Hnone Habs. unfold open_or_create, materialize.
    rewrite Hnone. by rewrite decide_False.
  - intros fb Hfb Hty. unfold open_or_create. rewrite Hfb.
    rewrite !decide_False by done. by split.
  - intros ty' t1 Hne. unfold open_or_create at 1.
    destruct (m_files t !! id) as [fb|] eqn:Hfb.
    + case_decide as Hty; [| done]. intros [= <-].
      unfold open_or_create. simpl. rewrite lookup_insert_eq. simpl.
      rewrite decide_False; [done | congruence].
    + destruct (materialize io_fault id true t); [| done | done].
      intros [= <-]. unfold open_or_create. simpl. rewrite lookup_insert_eq.
      simpl. by rewrite decide_False.
  - intros e Hnone Hmat. unfold open_or_create. by rewrite Hnone, Hmat.
  - intros R E member this table s r e Hmem.
    unfold open_as, create_as, wrap_in_handle. by rewrite Hmem.
Qed.

(** *** Configuration queries *)

Section FlagFacts.
Variables kOptionReadOnly kOptionNoAuthentication kOptionStoreTime : Z.
Variables ro_bit na_bit st_bit : Z.

Lemma land_pow2_is_zero (x n : Z) :
  (0 ≤ n)%Z → (Z.land x (2 ^ n) =? 0)%Z = negb (Z.testbit x n).
Proof.
  intros Hn. destruct (Z.testbit x n) eqn:Hbit; simpl.
  - apply Z.eqb_neq. intros Hzero.
    assert (Z.testbit (Z.land x (2 ^ n)) n = true) as Hone
      by (by rewrite Z.land_spec, Hbit, Z.pow2_bits_true).
    rewrite Hzero, Z.bits_0 in Hone. done.
  - apply Z.eqb_eq. apply Z.bits_inj'. intros m Hm.
    rewrite Z.land_spec, Z.bits_0, Z.pow2_bits_eqb by done.
    destruct (Z.eqb_spec n m) as [<- |]; [by rewrite Hbit |].
    by rewrite andb_false_r.
Qed.

(** C5.  Each option constant being one bit, the three queries read
    that bit of the flags the table was constructed with, and they read
    the same after any calls on the table. *)
Theorem config_queries (root : gset id_type) (flags : Z)
    (ops : list (table_op id_type)) :
  (0 ≤ ro_bit)%Z → kOptionReadOnly = (2 ^ ro_bit)%Z →
  (0 ≤ na_bit)%Z → kOptionNoAuthentication = (2 ^ na_bit)%Z →
  (0 ≤ st_bit)%Z → kOptionStoreTime = (2 ^ st_bit)%Z →
  let t := run_ops io_fault ops (FileTable_new root flags) in
  is_readonly kOptionReadOnly t = Z.testbit flags ro_bit
  ∧ is_auth_enabled kOptionNoAuthentication t = negb (Z.testbit flags na_bit)
  ∧ is_time_stored kOptionStoreTime t = Z.testbit flags st_bit
  ∧ is_readonly kOptionReadOnly t
    = is_readonly kOptionReadOnly (FileTable_new root flags)
  ∧ is_auth_enabled kOptionNoAuthentication t
    = is_auth_enabled kOptionNoAuthentication (FileTable_new root flags)
  ∧ is_time_stored kOptionStoreTime t
    = is_time_stored kOptionStoreTime (FileTable_new root flags).
Proof.
  intros Hro -> Hna -> Hst -> t.
  unfold is_readonly, is_auth_enabled, is_time_stored. subst t.
  rewrite run_ops_flags. simpl.
  rewrite !land_pow2_is_zero by done.
  by rewrite !negb_involutive.
Qed.

End FlagFacts.
End RegistryFacts.

(** C3 at work: with 101 idle objects, the close of object 101 makes the
    idle sequence 102 long and the objects 0 to 7 are evicted. *)
Lemma idle_cache_bound_witness :
  let t := run_ops no_fault crossing_ops (FileTable_new ∅ 0) in
  let t' := (FileTable_close (B:=unit) 101 t).1 in
  length (m_closed_ids t) = 101
  ∧ length (m_closed_ids t') ≤ MAX_NUM_CLOSED
  ∧ m_closed_ids t' = drop NUM_EJECT (m_closed_ids t ++ [101])
  ∧ finalized t' = finalized t ++ take NUM_EJECT (m_closed_ids t ++ [101])
  ∧ take NUM_EJECT (m_closed_ids t ++ [101]) = [0; 1; 2; 3; 4; 5; 6; 7]
  ∧ (∀ k, k ∈ take NUM_EJECT (m_closed_ids t ++ [101]) → m_files t' !! k = None).
Proof.
  intros t t'.
  destruct (idle_cache_bound no_fault ∅ 0 crossing_ops 101)
    as (Hbound & Hevict & _).
  destruct Hevict as (_ & Hidle & Hfin & Hgone & _).
  - exists {| fb_type := RegularFile; fb_ref := 1 |}.
    split; vm_compute; reflexivity.
  - vm_compute. apply le_n.
  - split; [vm_compute; reflexivity |]. split; [exact Hbound |].
    split; [exact Hidle |]. split; [exact Hfin |].
    split; [vm_compute; reflexivity | exact Hgone].
Defined.

(** C4 at work on the table whose one object is a directory. *)
Lemma open_failures_witness :
  FileTable_open_as no_fault 5 RegularFile one_directory
  = (one_directory, inl NotFound)
  ∧ FileTable_open_as no_fault 1 RegularFile one_directory
    = (one_directory, inl TypeMismatch)
  ∧ FileTable_create_as no_fault 1 Symlink one_directory
    = (one_directory, inl AlreadyExists)
  ∧ FileTable_create_as fault_on_7 7 RegularFile one_directory
    = (one_directory, inl (BackendError tt)).
Proof.
  split; [| split; [| split]].
  - apply (open_failures no_fault 5 RegularFile false one_directory).
    + vm_compute. reflexivity.
    + vm_compute. intros Hin. discriminate Hin.
  - apply (open_failures no_fault 1 RegularFile false one_directory)
      with (fb := {| fb_type := Directory; fb_ref := 1 |}).
    + vm_compute. reflexivity.
    + simpl. discriminate.
  - apply (open_failures no_fault 1 Symlink false one_directory)
      with (fb := {| fb_type := Directory; fb_ref := 1 |}).
    + vm_compute. reflexivity.
    + simpl. discriminate.
  - apply (open_failures fault_on_7 7 RegularFile true one_directory).
    + vm_compute. reflexivity.
    + vm_compute. reflexivity.
Defined.

(** C5 at work: the bits 1, 0 and 2 for read-only, no-authentication and
    store-time, and a table made with read-only and store-time set. *)
Lemma config_queries_witness :
  let t := run_ops no_fault [OpOpen 1 Directory true; OpClose 1]
             (FileTable_new ∅ 6) in
  is_readonly 2 t = Z.testbit 6 1
  ∧ is_auth_enabled 1 t = negb (Z.testbit 6 0)
  ∧ is_time_stored 4 t = Z.testbit 6 2
  ∧ is_readonly 2 t = is_readonly 2 (FileTable_new (id_type:=nat) ∅ 6)
  ∧ is_auth_enabled 1 t = is_auth_enabled 1 (FileTable_new (id_type:=nat) ∅ 6)
  ∧ is_time_stored 4 t = is_time_stored 4 (FileTable_new (id_type:=nat) ∅ 6).
Proof.
  apply (config_queries no_fault 2 1 4 1 0 2 ∅ 6
           [OpOpen 1 Directory true; OpClose 1]); first [reflexivity | lia].
Defined.

(** * Further properties of the header *)

(** ** The life of a handle *)

Section HandleLife.
Context {R E : Type}.
Variable FileTable_close : nat → nat → R → R * option E.
Implicit Types (s : State R) (h : AutoClosedFileBase).

Lemma state_eq s s' :
  handles s = handles s' → registry s = registry s' → closes s = closes s' →
  mutexes s = mutexes s' → lock_log s = lock_log s' → s = s'.
Proof. destruct s, s'. simpl. by intros -> -> -> -> ->. Qed.

Lemma delete_insert_fresh (m : gmap nat AutoClosedFileBase) (a : nat) h :
  m !! a = None → delete a (<[a:=h]> m) = m.
Proof. intros Hm. rewrite delete_insert_eq. by apply delete_id. Qed.

(** X1.  A handle is constructed on an object, moved into a second
    handle, and both are dropped, in either order: [close] is called for
    the object once, by the drop of the second handle, and the handles
    that existed before are as they were. *)
Theorem moved_handle_closes_once (this that ft fb : nat) s :
  handles s !! this = None →
  handles s !! that = None →
  this ≠ that →
  ∃ s1 s2,
    construct (E:=E) this (Some ft) (Some fb) s = Normal tt s1
    ∧ move_construct (E:=E) that this s1 = Normal tt s2
    ∧ closes s2 = closes s ∧ registry s2 = registry s
    ∧ (∃ s3 s4, destructor FileTable_close this s2 = Normal tt s3
                ∧ closes s3 = closes s
                ∧ destructor FileTable_close that s3 = Normal tt s4
                ∧ closes s4 = closes s ++ [(ft, fb)]
                ∧ handles s4 = handles s)
    ∧ (∃ s3 s4, destructor FileTable_close that s2 = Normal tt s3
                ∧ closes s3 = closes s ++ [(ft, fb)]
                ∧ destructor FileTable_close this s3 = Normal tt s4
                ∧ closes s4 = closes s ++ [(ft, fb)]
                ∧ handles s4 = handles s).
Proof.
  intros Hthis Hthat Hne.
  unfold construct. rewrite Hthis.
  set (s1 := set_handles _ s). exists s1.
  unfold move_construct.
  assert (handles s1 !! that = None) as H1that
    by (simpl; by rewrite lookup_insert_ne).
  assert (handles s1 !! this = Some {| m_ft := Some ft; m_fb := Some fb |})
    as H1this by (simpl; apply lookup_insert_eq).
  rewrite H1that, H1this. simpl m_ft. simpl m_fb.
  set (s2 := set_handles _ (set_handles _ s1)). exists s2.
  assert (handles s2 !! this = Some {| m_ft := nullptr; m_fb := nullptr |})
    as H2this by (simpl; apply lookup_insert_eq).
  assert (handles s2 !! that = Some {| m_ft := Some ft; m_fb := Some fb |})
    as H2that by (simpl; rewrite lookup_insert_ne, lookup_insert_eq; done).
  assert (delete that (delete this (handles s2)) = handles s) as Hback.
  { simpl. rewrite delete_insert_eq, delete_insert_ne, delete_insert_eq by done.
    rewrite (delete_insert_fresh _ _ _ Hthis). by apply delete_id. }
  split_and!; try done.
  - destruct (destructor_empty FileTable_close this s2 _ H2this (or_introl eq_refl))
      as (s3 & Hd3 & Hc3 & Hr3 & Hh3).
    assert (handles s3 !! that = Some {| m_ft := Some ft; m_fb := Some fb |})
      as H3that by (rewrite Hh3, lookup_delete_ne; done).
    destruct (destructor_holding FileTable_close that s3 ft fb H3that)
      as (s4 & Hd4 & Hc4 & Hh4).
    exists s3, s4. split_and!; try done.
    + by rewrite Hc4, Hc3.
    + by rewrite Hh4, Hh3.
  - destruct (destructor_holding FileTable_close that s2 ft fb H2that)
      as (s3 & Hd3 & Hc3 & Hh3).
    assert (handles s3 !! this = Some {| m_ft := nullptr; m_fb := nullptr |})
      as H3this by (rewrite Hh3, lookup_delete_ne; done).
    destruct (destructor_empty FileTable_close this s3 _ H3this (or_introl eq_refl))
      as (s4 & Hd4 & Hc4 & Hr4 & Hh4).
    exists s3, s4. split_and!; try done.
    + by rewrite Hc4, Hc3.
    + rewrite Hh4, Hh3. by rewrite delete_delete.
Qed.

(** X2.  When the member function returns a pointer, the free functions
    [open_as] and [create_as] make a handle on the table and on that
    pointer, call no [close] and leave the registry as the member
    function left it.  The drop of that handle calls [close] once on that
    table for that object, or not at all when the pointer was null, and
    the handles that existed before are as they were. *)
Theorem open_as_makes_handle {Id Ty : Type}
    (member : nat → Id → Ty → R → R * (E + ptr))
    (this table : nat) (id : Id) (type : Ty) s (r : R) (p : ptr) :
  handles s !! this = None →
  member table id type (registry s) = (r, inr p) →
  ∃ s1,
    open_as member this table id type s = Normal tt s1
    ∧ create_as member this table id type s = Normal tt s1
    ∧ handles s1 !! this = Some {| m_ft := Some table; m_fb := p |}
    ∧ registry s1 = r ∧ closes s1 = closes s
    ∧ ∃ s2, destructor FileTable_close this s1 = Normal tt s2
            ∧ closes s2 = closes s ++
                match p with Some fb => [(table, fb)] | None => [] end
            ∧ handles s2 = handles s.
Proof.
  intros Hfresh Hmem.
  unfold open_as, create_as, wrap_in_handle. rewrite Hmem.
  unfold construct. simpl. rewrite Hfresh.
  set (s1 := set_handles _ _). exists s1.
  assert (handles s1 !! this = Some {| m_ft := Some table; m_fb := p |})
    as H1 by (simpl; apply lookup_insert_eq).
  split_and!; try done.
  destruct p as [fb|].
  - destruct (destructor_holding FileTable_close this s1 table fb H1)
      as (s2 & Hd & Hc & Hh).
    exists s2. split_and!; try done.
    rewrite Hh. simpl. by apply delete_insert_fresh.
  - destruct (destructor_empty FileTable_close this s1 _ H1 (or_intror eq_refl))
      as (s2 & Hd & Hc & _ & Hh).
    exists s2. split_and!; try done.
    + rewrite Hc. simpl. by rewrite app_nil_r.
    + rewrite Hh. simpl. by apply delete_insert_fresh.
Qed.

(** X3.  [reset(fb)] on a handle that holds an object, when [close]
    returns: [close] is called once for the old object, the handle then
    holds [fb] under the same table, and its drop calls [close] for [fb]
    if [fb] is not null.  Nothing compares [fb] with the old pointer: a
    handle reset to the object it holds has it closed and keeps it, and
    the drop closes it a second time. *)
Theorem reset_replaces (this ft old : nat) (fb : ptr) s :
  handles s !! this = Some {| m_ft := Some ft; m_fb := Some old |} →
  (FileTable_close ft old (registry s)).2 = None →
  ∃ s1,
    reset FileTable_close this fb s = Normal tt s1
    ∧ handles s1 !! this = Some {| m_ft := Some ft; m_fb := fb |}
    ∧ closes s1 = closes s ++ [(ft, old)]
    ∧ registry s1 = (FileTable_close ft old (registry s)).1
    ∧ ∃ s2, destructor FileTable_close this s1 = Normal tt s2
            ∧ closes s2 = closes s ++ [(ft, old)] ++
                match fb with Some new => [(ft, new)] | None => [] end.
Proof.
  intros Hh Hret. rewrite (reset_holding _ _ _ _ _ _ Hh). simpl. rewrite Hret.
  set (s1 := set_handles _ _). exists s1.
  assert (handles s1 !! this = Some {| m_ft := Some ft; m_fb := fb |})
    as H1 by (simpl; apply lookup_insert_eq).
  split_and!; try done.
  destruct fb as [new|].
  - destruct (destructor_holding FileTable_close this s1 ft new H1)
      as (s2 & Hd & Hc & _).
    exists s2. split; [done |]. rewrite Hc. simpl. by rewrite <- app_assoc.
  - destruct (destructor_empty FileTable_close this s1 _ H1 (or_intror eq_refl))
      as (s2 & Hd & Hc & _).
    exists s2. split; [done |]. by rewrite Hc.
Qed.

(** X4.  When [close] throws, [reset(fb)] throws the same exception to
    its caller; no handle has changed, so the handle still holds the old
    object and has not taken [fb], and the mutexes are as they were. *)
Theorem reset_throws_keeps_handle (this ft old : nat) (fb : ptr) (e : E) s :
  handles s !! this = Some {| m_ft := Some ft; m_fb := Some old |} →
  (FileTable_close ft old (registry s)).2 = Some e →
  ∃ s1,
    reset FileTable_close this fb s = Thrown e s1
    ∧ handles s1 = handles s
    ∧ closes s1 = closes s ++ [(ft, old)]
    ∧ registry s1 = (FileTable_close ft old (registry s)).1
    ∧ mutexes s1 = mutexes s ∧ lock_log s1 = lock_log s.
Proof.
  intros Hh Hthrow. rewrite (reset_holding _ _ _ _ _ _ Hh). simpl.
  rewrite Hthrow. by eexists.
Qed.

Lemma swapped_handles_comm (m : gmap nat AutoClosedFileBase) (this other : nat)
    (t o : AutoClosedFileBase) :
  m !! this = Some t → m !! other = Some o →
  <[other:=t]> (<[this:=o]> m) = <[this:=o]> (<[other:=t]> m).
Proof.
  intros Ht Ho. destruct (decide (this = other)) as [-> | Hne].
  - by simplify_eq.
  - by apply insert_insert_ne.
Qed.

Lemma swapped_handles_back (m : gmap nat AutoClosedFileBase) (this other : nat)
    (t o : AutoClosedFileBase) :
  m !! this = Some t → m !! other = Some o →
  <[other:=o]> (<[this:=t]> (<[other:=t]> (<[this:=o]> m))) = m.
Proof.
  intros Ht Ho. apply map_eq. intros a.
  destruct (decide (a = other)) as [-> | Hao].
  - by rewrite lookup_insert_eq.
  - rewrite lookup_insert_ne by done.
    destruct (decide (a = this)) as [-> | Hat].
    + by rewrite lookup_insert_eq.
    + by rewrite !lookup_insert_ne by done.
Qed.

(** X5.  [swap] exchanges what two handles hold, whichever of the two it
    is called on, and a second [swap] gives back the state it started
    from; a handle swapped with itself is as it was. *)
Theorem swap_exchanges (this other : nat) s (t o : AutoClosedFileBase) :
  handles s !! this = Some t →
  handles s !! other = Some o →
  ∃ s1,
    swap (E:=E) this other s = Normal tt s1
    ∧ swap (E:=E) other this s = Normal tt s1
    ∧ handles s1 !! this = Some o
    ∧ handles s1 !! other = Some t
    ∧ swap (E:=E) this other s1 = Normal tt s
    ∧ (this = other → s1 = s).
Proof.
  intros Ht Ho. unfold swap at 1 2. rewrite Ht, Ho.
  destruct t as [tft tfb], o as [oft ofb]. simpl.
  set (s1 := set_handles _ (set_handles _ s)). exists s1.
  assert (handles s1 !! other = Some {| m_ft := tft; m_fb := tfb |})
    as H1o by (simpl; apply lookup_insert_eq).
  assert (handles s1 !! this = Some {| m_ft := oft; m_fb := ofb |}) as H1t.
  { simpl. destruct (decide (this = other)) as [-> | Hne].
    - rewrite lookup_insert_eq. congruence.
    - by rewrite lookup_insert_ne, lookup_insert_eq. }
  assert (set_handles
            (insert other {| m_ft := oft; m_fb := ofb |})
            (set_handles (insert this {| m_ft := tft; m_fb := tfb |}) s1) = s)
    as Hback.
  { apply state_eq; try done. simpl. by apply swapped_handles_back. }
  split_and!; try done.
  - f_equal. apply state_eq; try done. simpl.
    symmetry. by apply swapped_handles_comm.
  - unfold swap. rewrite H1t, H1o. simpl. by rewrite Hback.
  - intros ->. apply state_eq; try done. simpl.
    rewrite insert_insert_eq. apply insert_id. congruence.
Qed.

(** X6.  Move assignment of a handle to itself changes nothing, and
    moving one handle onto another and back again gives back the state
    it started from. *)
Theorem move_assign_there_and_back (this other : nat) s
    (t o : AutoClosedFileBase) :
  handles s !! this = Some t →
  handles s !! other = Some o →
  move_assign (E:=E) this this s = Normal tt s
  ∧ ∃ s1, move_assign (E:=E) this other s = Normal tt s1
          ∧ move_assign (E:=E) other this s1 = Normal tt s.
Proof.
  intros Ht Ho. split.
  - unfold move_assign. rewrite decide_True by done. by rewrite Ht.
  - unfold move_assign. destruct (decide (this = other)) as [-> | Hne].
    + rewrite Ht. exists s. split; [done |].
      rewrite decide_True by done. by rewrite Ht.
    + unfold swap at 1. rewrite Ht, Ho.
      destruct t as [tft tfb], o as [oft ofb]. simpl.
      set (s1 := set_handles _ (set_handles _ s)). exists s1.
      split; [done |]. rewrite decide_False by done. unfold swap.
      assert (handles s1 !! other = Some {| m_ft := tft; m_fb := tfb |})
        as H1o by (simpl; apply lookup_insert_eq).
      assert (handles s1 !! this = Some {| m_ft := oft; m_fb := ofb |})
        as H1t by (simpl; by rewrite lookup_insert_ne, lookup_insert_eq).
      rewrite H1o, H1t. simpl. f_equal.
      apply state_eq; try done. simpl. apply map_eq. intros a.
      destruct (decide (a = this)) as [-> | Hat];
        [by rewrite lookup_insert_eq |].
      rewrite lookup_insert_ne by done.
      destruct (decide (a = other)) as [-> | Hao];
        [by rewrite lookup_insert_eq |].
      by rewrite !lookup_insert_ne by done.
Qed.

(** X7.  The member functions touch no handle but the ones they are
    called on and given, and no mutex: whatever a call does, returning or
    throwing, a third handle is afterwards what it was. *)
Theorem handle_calls_leave_others (a this other : nat) (ft fb : ptr) s :
  a ≠ this →
  a ≠ other →
  leaves_alone a s (construct (E:=E) this ft fb s)
  ∧ leaves_alone a s (move_construct (E:=E) this other s)
  ∧ leaves_alone a s (move_assign (E:=E) this other s)
  ∧ leaves_alone a s (swap (E:=E) this other s)
  ∧ leaves_alone a s (get (E:=E) this s)
  ∧ leaves_alone a s (release (E:=E) this s)
  ∧ leaves_alone a s (reset FileTable_close this fb s)
  ∧ leaves_alone a s (destructor FileTable_close this s).
Proof.
  intros Hat Hao.
  assert (∀ fb', leaves_alone a s (reset FileTable_close this fb' s)) as Hreset.
  { intros fb' s1. unfold reset, call_close.
    destruct (handles s !! this) as [[[tft|] [tfb|]]|]; simpl; try done;
      try (intros [= <-]; simpl; by rewrite lookup_insert_ne).
    destruct (FileTable_close tft tfb (registry s)) as [r [e|]]; simpl;
      intros [= <-]; simpl; [done | by rewrite lookup_insert_ne]. }
  assert (leaves_alone a s (swap (E:=E) this other s)) as Hswap.
  { intros s1. unfold swap.
    destruct (handles s !! this), (handles s !! other); simpl; try done.
    intros [= <-]. simpl. by rewrite !lookup_insert_ne. }
  split_and!; try done.
  - intros s1. unfold construct.
    destruct (handles s !! this); simpl; [done |].
    intros [= <-]. simpl. by rewrite lookup_insert_ne.
  - intros s1. unfold move_construct.
    destruct (handles s !! this), (handles s !! other); simpl; try done.
    intros [= <-]. simpl. by rewrite !lookup_insert_ne.
  - unfold move_assign. case_decide; [| done].
    intros s1. destruct (handles s !! this); simpl; [| done]. by intros [= <-].
  - intros s1. unfold get.
    destruct (handles s !! this); simpl; [| done]. by intros [= <-].
  - intros s1. unfold release.
    destruct (handles s !! this); simpl; [| done].
    intros [= <-]. simpl. by rewrite lookup_insert_ne.
  - intros s1. unfold destructor.
    destruct (reset FileTable_close this nullptr s) as [u s0 | e s0 |] eqn:Hr;
      simpl; [| | done].
    + intros [= <-]. simpl. rewrite lookup_delete_ne by done.
      apply (Hreset nullptr s0). by rewrite Hr.
    + intros [= <-]. simpl. rewrite lookup_delete_ne by done.
      apply (Hreset nullptr s0). by rewrite Hr.
Qed.

(** X8.  An object is handed from one handle to another by [release]:
    the first handle gives up the pointer without a call of [close], a
    second handle is constructed on it, and when both are dropped, in
    either order, [close] is called for the object once, by the drop of
    the second handle. *)
Theorem release_hands_over (this that ft fb : nat) s :
  handles s !! this = Some {| m_ft := Some ft; m_fb := Some fb |} →
  handles s !! that = None →
  ∃ s1 s2,
    release (E:=E) this s = Normal (Some fb) s1
    ∧ construct (E:=E) that (Some ft) (Some fb) s1 = Normal tt s2
    ∧ closes s2 = closes s ∧ registry s2 = registry s
    ∧ (∃ s3 s4, destructor FileTable_close this s2 = Normal tt s3
                ∧ closes s3 = closes s
                ∧ destructor FileTable_close that s3 = Normal tt s4
                ∧ closes s4 = closes s ++ [(ft, fb)])
    ∧ (∃ s3 s4, destructor FileTable_close that s2 = Normal tt s3
                ∧ closes s3 = closes s ++ [(ft, fb)]
                ∧ destructor FileTable_close this s3 = Normal tt s4
                ∧ closes s4 = closes s ++ [(ft, fb)]).
Proof.
  intros Hthis Hthat.
  assert (this ≠ that) as Hne by (intros ->; congruence).
  unfold release. rewrite Hthis. simpl.
  set (s1 := set_handles _ s). exists s1.
  unfold construct.
  assert (handles s1 !! that = None) as H1that
    by (simpl; by rewrite lookup_insert_ne).
  rewrite H1that.
  set (s2 := set_handles _ s1). exists s2.
  assert (handles s2 !! this = Some {| m_ft := Some ft; m_fb := nullptr |})
    as H2this by (simpl; rewrite lookup_insert_ne, lookup_insert_eq; done).
  assert (handles s2 !! that = Some {| m_ft := Some ft; m_fb := Some fb |})
    as H2that by (simpl; apply lookup_insert_eq).
  split_and!; try done.
  - destruct (destructor_empty FileTable_close this s2 _ H2this (or_intror eq_refl))
      as (s3 & Hd3 & Hc3 & Hr3 & Hh3).
    assert (handles s3 !! that = Some {| m_ft := Some ft; m_fb := Some fb |})
      as H3that by (rewrite Hh3, lookup_delete_ne; done).
    destruct (destructor_holding FileTable_close that s3 ft fb H3that)
      as (s4 & Hd4 & Hc4 & Hh4).
    exists s3, s4. split_and!; try done. by rewrite Hc4, Hc3.
  - destruct (destructor_holding FileTable_close that s2 ft fb H2that)
      as (s3 & Hd3 & Hc3 & Hh3).
    assert (handles s3 !! this = Some {| m_ft := Some ft; m_fb := nullptr |})
      as H3this by (rewrite Hh3, lookup_delete_ne; done).
    destruct (destructor_empty FileTable_close this s3 _ H3this (or_intror eq_refl))
      as (s4 & Hd4 & Hc4 & Hr4 & Hh4).
    exists s3, s4. split_and!; try done. by rewrite Hc4, Hc3.
Qed.

End HandleLife.

(** X1 at work: new handles at the addresses 3 and 4 on object 30. *)
Lemma moved_handle_closes_once_witness :
  ∃ s1 s2,
    construct (E:=unit) 3 (Some 0) (Some 30) two_handles = Normal tt s1
    ∧ move_construct (E:=unit) 4 3 s1 = Normal tt s2
    ∧ closes s2 = closes two_handles ∧ registry s2 = registry two_handles
    ∧ (∃ s3 s4, destructor close_throws 3 s2 = Normal tt s3
                ∧ closes s3 = closes two_handles
                ∧ destructor close_throws 4 s3 = Normal tt s4
                ∧ closes s4 = closes two_handles ++ [(0, 30)]
                ∧ handles s4 = handles two_handles)
    ∧ (∃ s3 s4, destructor close_throws 4 s2 = Normal tt s3
                ∧ closes s3 = closes two_handles ++ [(0, 30)]
                ∧ destructor close_throws 3 s3 = Normal tt s4
                ∧ closes s4 = closes two_handles ++ [(0, 30)]
                ∧ handles s4 = handles two_handles).
Proof.
  apply (moved_handle_closes_once close_throws 3 4 0 30 two_handles);
    [reflexivity | reflexivity | lia].
Defined.

(** X2 at work: a member function that returns object 30. *)
Lemma open_as_makes_handle_witness :
  ∃ s1,
    open_as member_returns_30 3 0 7 RegularFile two_handles
    = Normal tt s1
    ∧ create_as member_returns_30 3 0 7 RegularFile two_handles
      = Normal tt s1
    ∧ handles s1 !! 3 = Some {| m_ft := Some 0; m_fb := Some 30 |}
    ∧ registry s1 = tt ∧ closes s1 = closes two_handles
    ∧ ∃ s2, destructor close_returns 3 s1 = Normal tt s2
            ∧ closes s2 = closes two_handles ++ [(0, 30)]
            ∧ handles s2 = handles two_handles.
Proof.
  apply (open_as_makes_handle close_returns member_returns_30
           3 0 7 RegularFile two_handles tt (Some 30)); reflexivity.
Defined.

(** X3 at work: the handle at 1 is reset to the object it holds. *)
Lemma reset_replaces_witness :
  ∃ s1,
    reset close_returns 1 (Some 10) two_handles = Normal tt s1
    ∧ handles s1 !! 1 = Some {| m_ft := Some 0; m_fb := Some 10 |}
    ∧ closes s1 = closes two_handles ++ [(0, 10)]
    ∧ registry s1 = (close_returns 0 10 (registry two_handles)).1
    ∧ ∃ s2, destructor close_returns 1 s1 = Normal tt s2
            ∧ closes s2 = closes two_handles ++ [(0, 10)] ++ [(0, 10)].
Proof.
  apply (reset_replaces close_returns 1 0 10 (Some 10) two_handles);
    reflexivity.
Defined.

(** X4 at work: the handle at 1 is reset to object 30 and [close]
    throws. *)
Lemma reset_throws_keeps_handle_witness :
  ∃ s1,
    reset close_throws 1 (Some 30) two_handles = Thrown tt s1
    ∧ handles s1 = handles two_handles
    ∧ closes s1 = closes two_handles ++ [(0, 10)]
    ∧ registry s1 = (close_throws 0 10 (registry two_handles)).1
    ∧ mutexes s1 = mutexes two_handles ∧ lock_log s1 = lock_log two_handles.
Proof.
  apply (reset_throws_keeps_handle close_throws 1 0 10 (Some 30) tt two_handles);
    reflexivity.
Defined.

(** X5 at work: the handles at 1 and 2 are swapped. *)
Lemma swap_exchanges_witness :
  ∃ s1,
    swap (E:=unit) 1 2 two_handles = Normal tt s1
    ∧ swap (E:=unit) 2 1 two_handles = Normal tt s1
    ∧ handles s1 !! 1 = Some {| m_ft := Some 0; m_fb := Some 20 |}
    ∧ handles s1 !! 2 = Some {| m_ft := Some 0; m_fb := Some 10 |}
    ∧ swap (E:=unit) 1 2 s1 = Normal tt two_handles
    ∧ (1 = 2 → s1 = two_handles).
Proof.
  apply (swap_exchanges 1 2 two_handles
           {| m_ft := Some 0; m_fb := Some 10 |}
           {| m_ft := Some 0; m_fb := Some 20 |}); reflexivity.
Defined.

(** X6 at work: the handle at 2 is moved onto the handle at 1 and back. *)
Lemma move_assign_there_and_back_witness :
  move_assign (E:=unit) 1 1 two_handles = Normal tt two_handles
  ∧ ∃ s1, move_assign (E:=unit) 1 2 two_handles = Normal tt s1
          ∧ move_assign (E:=unit) 2 1 s1 = Normal tt two_handles.
Proof.
  apply (move_assign_there_and_back 1 2 two_handles
           {| m_ft := Some 0; m_fb := Some 10 |}
           {| m_ft := Some 0; m_fb := Some 20 |}); reflexivity.
Defined.

(** X7 at work: the handle at 2 while the handles at 1 and 3 are used. *)
Lemma handle_calls_leave_others_witness :
  leaves_alone 2 two_handles (construct (E:=unit) 1 (Some 0) (Some 30) two_handles)
  ∧ leaves_alone 2 two_handles (move_construct (E:=unit) 1 3 two_handles)
  ∧ leaves_alone 2 two_handles (move_assign (E:=unit) 1 3 two_handles)
  ∧ leaves_alone 2 two_handles (swap (E:=unit) 1 3 two_handles)
  ∧ leaves_alone 2 two_handles (get (E:=unit) 1 two_handles)
  ∧ leaves_alone 2 two_handles (release (E:=unit) 1 two_handles)
  ∧ leaves_alone 2 two_handles (reset close_throws 1 (Some 30) two_handles)
  ∧ leaves_alone 2 two_handles (destructor close_throws 1 two_handles).
Proof.
  apply (handle_calls_leave_others close_throws 2 1 3 (Some 0) (Some 30)
           two_handles); lia.
Defined.

(** X8 at work: object 10 is handed from the handle at 1 to a new
    handle at 3. *)
Lemma release_hands_over_witness :
  ∃ s1 s2,
    release (E:=unit) 1 two_handles = Normal (Some 10) s1
    ∧ construct (E:=unit) 3 (Some 0) (Some 10) s1 = Normal tt s2
    ∧ closes s2 = closes two_handles ∧ registry s2 = registry two_handles
    ∧ (∃ s3 s4, destructor close_returns 1 s2 = Normal tt s3
                ∧ closes s3 = closes two_handles
                ∧ destructor close_returns 3 s3 = Normal tt s4
                ∧ closes s4 = closes two_handles ++ [(0, 10)])
    ∧ (∃ s3 s4, destructor close_returns 3 s2 = Normal tt s3
                ∧ closes s3 = closes two_handles ++ [(0, 10)]
                ∧ destructor close_returns 1 s3 = Normal tt s4
                ∧ closes s4 = closes two_handles ++ [(0, 10)]).
Proof.
  apply (release_hands_over close_returns 1 3 0 10 two_handles); reflexivity.
Defined.

(** ** Lock scopes *)

Lemma unlock_both (M : gset nat) (a b : nat) :
  a ∉ M → b ∉ M → a ≠ b →
  (b ∉ {[a]} ∪ M)
  ∧ (b ∈ {[b]} ∪ ({[a]} ∪ M))
  ∧ (a ∈ ({[b]} ∪ ({[a]} ∪ M)) ∖ {[b]})
  ∧ ({[b]} ∪ ({[a]} ∪ M)) ∖ {[b]} ∖ {[a]} = M.
Proof.
  intros Ha Hb Hne. split_and!.
  - intros [Hin%elem_of_singleton | Hin]%elem_of_union; [congruence | done].
  - apply elem_of_union_l. by apply elem_of_singleton.
  - apply elem_of_difference. split.
    + apply elem_of_union_r, elem_of_union_l. by apply elem_of_singleton.
    + intros Hin%elem_of_singleton. done.
  - apply set_eq. intros x.
    rewrite !elem_of_difference, !elem_of_union, !elem_of_singleton. split.
    + intros [[[Hx | [Hx | Hx]] Hxb] Hxa]; done.
    + intros Hx. split_and!; [by right; right | by intros -> | by intros ->].
Qed.

Section LockScopeLife.
Context {R E A : Type}.
Implicit Types (s : State R) (h : AutoClosedFileBase).

(** X9.  Two lock scopes, one inside the other, on handles of two
    objects, around a body that touches neither handles nor mutexes: the
    mutexes are locked in the order of the scopes and unlocked in the
    reverse order, on a return and on an exception alike, what the body
    returned or threw leaves both scopes, and no mutex is left locked
    that was not locked before. *)
Theorem nested_lock_scopes (f1 f2 a b : nat) (body : State R → result R E A)
    s h1 h2 :
  handles s !! f1 = Some h1 → m_fb h1 = Some a →
  handles s !! f2 = Some h2 → m_fb h2 = Some b →
  a ≠ b → a ∉ mutexes s → b ∉ mutexes s →
  (∀ s0, ∃ s0', state_after (body s0) = Some s0'
                ∧ handles s0' = handles s0 ∧ mutexes s0' = mutexes s0
                ∧ lock_log s0' = lock_log s0) →
  ∃ s12 sb s',
    lock_log s12 = lock_log s ++ [EvLock a; EvLock b]
    ∧ state_after (body s12) = Some sb
    ∧ lock_scope f1 (lock_scope f2 body) s
      = match body s12 with
        | Normal v _ => Normal v s'
        | Thrown e _ => Thrown e s'
        | Undefined => Undefined
        end
    ∧ mutexes s' = mutexes s
    ∧ lock_log s' = lock_log s ++ [EvLock a; EvLock b; EvUnlock b; EvUnlock a]
    ∧ registry s' = registry sb ∧ closes s' = closes sb
    ∧ handles s' = handles s.
Proof.
  intros Hf1 Ha Hf2 Hb Hne Hfa Hfb Hquiet.
  destruct (unlock_both (mutexes s) a b Hfa Hfb Hne) as (Hfb1 & Hbin & Hain & Hset).
  pose proof (AutoClosedFileLockGuard_ctor_locks (E:=E) f1 a s h1 Hf1 Ha Hfa) as Hc1.
  set (s1 := {| handles := handles s; mutexes := {[a]} ∪ mutexes s |}) in Hc1.
  pose proof (AutoClosedFileLockGuard_ctor_locks (E:=E) f2 b s1 h2 Hf2 Hb Hfb1) as Hc2.
  set (s12 := {| handles := handles s1; mutexes := {[b]} ∪ mutexes s1 |}) in Hc2.
  destruct (Hquiet s12) as (sb & Hsb & Hhb & Hmb & Hlb).
  assert (handles sb !! f2 = Some h2) as Hbf2 by (by rewrite Hhb).
  assert (b ∈ mutexes sb) as Hbheld by (by rewrite Hmb).
  pose proof (AutoClosedFileLockGuard_dtor_unlocks (E:=E) f2 b sb h2 Hbf2 Hb Hbheld)
    as Hd2.
  set (s3 := {| handles := handles sb; mutexes := mutexes sb ∖ {[b]} |}) in Hd2.
  assert (handles s3 !! f1 = Some h1) as H3f1 by (simpl; by rewrite Hhb).
  assert (a ∈ mutexes s3) as Haheld by (simpl; by rewrite Hmb).
  pose proof (AutoClosedFileLockGuard_dtor_unlocks (E:=E) f1 a s3 h1 H3f1 Ha Haheld)
    as Hd1.
  set (s' := {| handles := handles s3; mutexes := mutexes s3 ∖ {[a]} |}) in Hd1.
  exists s12, sb, s'. split_and!; try done.
  - simpl. by rewrite <- app_assoc.
  - unfold lock_scope at 1. rewrite Hc1. unfold lock_scope at 1. rewrite Hc2.
    destruct (body s12) as [v sb' | e sb' |]; simpl in Hsb; [| | done];
      injection Hsb as ->; rewrite Hd2, Hd1; done.
  - simpl. by rewrite Hmb.
  - simpl. rewrite Hlb. simpl. by rewrite <- !app_assoc.
Qed.

(** X10.  The guard needs a handle that holds an object, when the scope
    is entered and still when it is left.  On a handle whose object
    pointer is null the constructor dereferences null, whatever the body;
    and when the body is [release] on the guarded handle, the destructor
    does. *)
Theorem lock_scope_needs_object (fp : nat) s h :
  handles s !! fp = Some h →
  (m_fb h = nullptr →
     ∀ body : State R → result R E A, lock_scope fp body s = Undefined)
  ∧ (∀ fb, m_fb h = Some fb → fb ∉ mutexes s →
       lock_scope (E:=E) fp (release fp) s = Undefined).
Proof.
  intros Hh. split.
  - intros Hnull body. unfold lock_scope, AutoClosedFileLockGuard_ctor, get.
    by rewrite Hh, Hnull.
  - intros fb Hfb Hfree. unfold lock_scope.
    rewrite (AutoClosedFileLockGuard_ctor_locks fp fb s h Hh Hfb Hfree).
    unfold release. simpl. rewrite Hh.
    unfold AutoClosedFileLockGuard_dtor, get. simpl.
    by rewrite lookup_insert_eq.
Qed.

End LockScopeLife.

(** X9 at work: guards on the handles at 1 and 2 around a body that
    throws. *)
Lemma nested_lock_scopes_witness :
  ∃ s12 sb s',
    lock_log s12 = lock_log two_handles ++ [EvLock 10; EvLock 20]
    ∧ state_after ((λ s, Thrown (A:=nat) tt s) s12) = Some sb
    ∧ lock_scope 1 (lock_scope 2 (λ s, Thrown (A:=nat) tt s)) two_handles
      = match (λ s, Thrown (A:=nat) tt s) s12 with
        | Normal v _ => Normal v s'
        | Thrown e _ => Thrown e s'
        | Undefined => Undefined
        end
    ∧ mutexes s' = mutexes two_handles
    ∧ lock_log s'
      = lock_log two_handles ++ [EvLock 10; EvLock 20; EvUnlock 20; EvUnlock 10]
    ∧ registry s' = registry sb ∧ closes s' = closes sb
    ∧ handles s' = handles two_handles.
Proof.
  apply (nested_lock_scopes 1 2 10 20 (λ s, Thrown (A:=nat) tt s) two_handles
           {| m_ft := Some 0; m_fb := Some 10 |}
           {| m_ft := Some 0; m_fb := Some 20 |}).
  - reflexivity.
  - reflexivity.
  - reflexivity.
  - reflexivity.
  - lia.
  - vm_compute. intros Hin. discriminate Hin.
  - vm_compute. intros Hin. discriminate Hin.
  - intros s0. exists s0. repeat split.
Defined.

(** X10 at work: a guard on the handle at 1 around [release]. *)
Lemma lock_scope_needs_object_witness :
  (Some 10 = nullptr →
     ∀ body : State unit → result unit unit nat,
       lock_scope 1 body two_handles = Undefined)
  ∧ (∀ fb, Some 10 = Some fb → fb ∉ mutexes two_handles →
       lock_scope (E:=unit) 1 (release 1) two_handles = Undefined).
Proof.
  apply (lock_scope_needs_object (A:=nat) 1 two_handles
           {| m_ft := Some 0; m_fb := Some 10 |}).
  reflexivity.
Defined.

(** ** Option flags *)

Section FlagLife.
Context `{Countable id_type}.

Lemma option_bit (chosen : bool) (i j : Z) :
  (0 ≤ i)%Z → (0 ≤ j)%Z →
  Z.testbit (if chosen then 2 ^ i else 0)%Z j = chosen && (i =? j)%Z.
Proof.
  intros Hi Hj. destruct chosen; simpl.
  - by apply Z.pow2_bits_eqb.
  - apply Z.bits_0.
Qed.

Lemma land_one_bit (x n : Z) :
  (0 ≤ n)%Z → (Z.land x (2 ^ n) =? 0)%Z = negb (Z.testbit x n).
Proof.
  intros Hn. destruct (Z.testbit x n) eqn:Hbit; simpl.
  - apply Z.eqb_neq. intros Hzero.
    assert (Z.testbit (Z.land x (2 ^ n)) n = true) as Hone
      by (by rewrite Z.land_spec, Hbit, Z.pow2_bits_true).
    rewrite Hzero, Z.bits_0 in Hone. done.
  - apply Z.eqb_eq. apply Z.bits_inj'. intros m Hm.
    rewrite Z.land_spec, Z.bits_0, Z.pow2_bits_eqb by done.
    destruct (Z.eqb_spec n m) as [<- |]; [by rewrite Hbit |].
    by rewrite andb_false_r.
Qed.

(** X11.  The three option constants being three different bits, a table
    whose flags are the bitwise or of the constants of the chosen options,
    and of any other bits, answers the queries with exactly the choice:
    read-only as chosen, authentication enabled unless no-authentication
    was chosen, time stored as chosen. *)
Theorem option_flags_round_trip (t : FileTable id_type)
    (kOptionReadOnly kOptionNoAuthentication kOptionStoreTime : Z)
    (ro_bit na_bit st_bit other : Z) (ro na st : bool) :
  (0 ≤ ro_bit)%Z → (0 ≤ na_bit)%Z → (0 ≤ st_bit)%Z →
  ro_bit ≠ na_bit → ro_bit ≠ st_bit → na_bit ≠ st_bit →
  kOptionReadOnly = (2 ^ ro_bit)%Z →
  kOptionNoAuthentication = (2 ^ na_bit)%Z →
  kOptionStoreTime = (2 ^ st_bit)%Z →
  Z.testbit other ro_bit = false →
  Z.testbit other na_bit = false →
  Z.testbit other st_bit = false →
  m_flags t
  = Z.lor (Z.lor (Z.lor (if ro then kOptionReadOnly else 0)
                        (if na then kOptionNoAuthentication else 0))
                 (if st then kOptionStoreTime else 0))
          other →
  is_readonly kOptionReadOnly t = ro
  ∧ is_auth_enabled kOptionNoAuthentication t = negb na
  ∧ is_time_stored kOptionStoreTime t = st.
Proof.
  intros Hro Hna Hst Hrn Hrs Hns -> -> -> Hor Hon Hos Hflags.
  unfold is_readonly, is_auth_enabled, is_time_stored. rewrite Hflags.
  rewrite !land_one_bit by done. rewrite !negb_involutive.
  rewrite !Z.lor_spec, !option_bit by done.
  rewrite Hor, Hon, Hos, !Z.eqb_refl.
  rewrite (proj2 (Z.eqb_neq ro_bit na_bit)), (proj2 (Z.eqb_neq na_bit ro_bit)),
    (proj2 (Z.eqb_neq ro_bit st_bit)), (proj2 (Z.eqb_neq st_bit ro_bit)),
    (proj2 (Z.eqb_neq na_bit st_bit)), (proj2 (Z.eqb_neq st_bit na_bit))
    by congruence.
  by destruct ro, na, st.
Qed.

End FlagLife.

(** X11 at work: the bits 1, 0 and 2, read-only and store-time chosen,
    bit 5 set besides. *)
Lemma option_flags_round_trip_witness :
  is_readonly 2 (FileTable_new (id_type:=nat) ∅ 38) = true
  ∧ is_auth_enabled 1 (FileTable_new (id_type:=nat) ∅ 38) = negb false
  ∧ is_time_stored 4 (FileTable_new (id_type:=nat) ∅ 38) = true.
Proof.
  apply (option_flags_round_trip (FileTable_new (id_type:=nat) ∅ 38)
           2 1 4 1 0 2 32 true false true); first [reflexivity | lia].
Defined.

(** ** A handle from open to drop *)

Lemma lock_unlock_same (M : gset nat) (fb : nat) :
  fb ∉ M → (fb ∈ {[fb]} ∪ M) ∧ ({[fb]} ∪ M) ∖ {[fb]} = M.
Proof.
  intros Hfree. split.
  - apply elem_of_union_l. by apply elem_of_singleton.
  - apply set_eq. intros x.
    rewrite elem_of_difference, elem_of_union, elem_of_singleton. split.
    + intros [[Hx | Hx] Hne]; done.
    + intros Hx. split; [by right | by intros ->].
Qed.

Section OpenToDrop.
Context {R E A Id Ty : Type}.
Variable FileTable_close : nat → nat → R → R * option E.
Variable member : nat → Id → Ty → R → R * (E + ptr).

Lemma destructor_mutexes (this : nat) (s s' : State R) :
  destructor FileTable_close this s = Normal tt s' →
  mutexes s' = mutexes s ∧ lock_log s' = lock_log s.
Proof.
  unfold destructor, reset, call_close.
  destruct (handles s !! this) as [[[tft|] [tfb|]]|]; simpl; try done;
    try (by intros [= <-]).
  destruct (FileTable_close tft tfb (registry s)) as [r' [e|]]; simpl;
    by intros [= <-].
Qed.

(** X12.  The usual use of the header: a handle is opened with [open_as],
    a lock scope on it runs a body that touches neither handles nor
    mutexes, and the handle is dropped.  Whether the body returns or
    throws, it ran with the mutex of the object locked, which was locked
    and unlocked once; afterwards the handles and the mutexes are as
    before, and [close] has been called for the object once, after
    everything the body did. *)
Theorem open_lock_drop (this table fb : nat) (id : Id) (type : Ty)
    (body : State R → result R E A) (s : State R) (r : R) :
  handles s !! this = None →
  member table id type (registry s) = (r, inr (Some fb)) →
  fb ∉ mutexes s →
  (∀ s0, ∃ s0', state_after (body s0) = Some s0'
                ∧ handles s0' = handles s0 ∧ mutexes s0' = mutexes s0
                ∧ lock_log s0' = lock_log s0) →
  ∃ s1 sl sb s2 s3,
    open_as member this table id type s = Normal tt s1
    ∧ AutoClosedFileLockGuard_ctor (E:=E) this s1 = Normal tt sl
    ∧ fb ∈ mutexes sl
    ∧ state_after (body sl) = Some sb
    ∧ state_after (lock_scope this body s1) = Some s2
    ∧ closes s2 = closes sb ∧ registry s2 = registry sb
    ∧ destructor FileTable_close this s2 = Normal tt s3
    ∧ closes s3 = closes sb ++ [(table, fb)]
    ∧ handles s3 = handles s
    ∧ mutexes s3 = mutexes s
    ∧ lock_log s3 = lock_log s ++ [EvLock fb; EvUnlock fb].
Proof.
  intros Hfresh Hmem Hfree Hquiet.
  destruct (lock_unlock_same (mutexes s) fb Hfree) as [Hin Hset].
  unfold open_as, wrap_in_handle. rewrite Hmem. unfold construct. simpl.
  rewrite Hfresh.
  set (s1 := set_handles _ _). exists s1.
  assert (handles s1 !! this = Some {| m_ft := Some table; m_fb := Some fb |})
    as H1 by (simpl; apply lookup_insert_eq).
  pose proof (AutoClosedFileLockGuard_ctor_locks (E:=E) this fb s1 _ H1 eq_refl Hfree)
    as Hc.
  set (sl := {| handles := handles s1; mutexes := {[fb]} ∪ mutexes s1 |}) in Hc.
  destruct (Hquiet sl) as (sb & Hsb & Hhb & Hmb & Hlb).
  assert (handles sb !! this = Some {| m_ft := Some table; m_fb := Some fb |})
    as Hbh by (by rewrite Hhb).
  assert (fb ∈ mutexes sb) as Hheld by (by rewrite Hmb).
  pose proof (AutoClosedFileLockGuard_dtor_unlocks (E:=E) this fb sb _ Hbh eq_refl Hheld)
    as Hd.
  set (s2 := {| handles := handles sb; mutexes := mutexes sb ∖ {[fb]} |}) in Hd.
  assert (handles s2 !! this = Some {| m_ft := Some table; m_fb := Some fb |})
    as H2 by done.
  destruct (destructor_holding FileTable_close this s2 table fb H2)
    as (s3 & Hd3 & Hc3 & Hh3).
  destruct (destructor_mutexes this s2 s3 Hd3) as [Hm3 Hl3].
  exists sl, sb, s2, s3. split_and!; try done.
  - unfold lock_scope. rewrite Hc.
    destruct (body sl) as [v sb' | e sb' |]; simpl in Hsb; [| | done];
      injection Hsb as ->; by rewrite Hd.
  - rewrite Hh3. simpl. rewrite Hhb. simpl. by apply delete_insert_fresh.
  - rewrite Hm3. simpl. by rewrite Hmb.
  - rewrite Hl3. simpl. rewrite Hlb. simpl. by rewrite <- app_assoc.
Qed.

End OpenToDrop.

(** X12 at work: object 30 is opened at address 3, and the body returns
    the number 5. *)
Lemma open_lock_drop_witness :
  ∃ s1 sl sb s2 s3,
    open_as member_returns_30 3 0 7 RegularFile two_handles = Normal tt s1
    ∧ AutoClosedFileLockGuard_ctor (E:=unit) 3 s1 = Normal tt sl
    ∧ 30 ∈ mutexes sl
    ∧ state_after (body_returns_5 sl) = Some sb
    ∧ state_after (lock_scope 3 body_returns_5 s1) = Some s2
    ∧ closes s2 = closes sb ∧ registry s2 = registry sb
    ∧ destructor close_returns 3 s2 = Normal tt s3
    ∧ closes s3 = closes sb ++ [(0, 30)]
    ∧ handles s3 = handles two_handles
    ∧ mutexes s3 = mutexes two_handles
    ∧ lock_log s3 = lock_log two_handles ++ [EvLock 30; EvUnlock 30].
Proof.
  apply (open_lock_drop close_returns member_returns_30 3 0 30 7 RegularFile
           body_returns_5 two_handles tt).
  - reflexivity.
  - reflexivity.
  - vm_compute. intros Hin. discriminate Hin.
  - intros s0. exists s0. repeat split.
Defined.
